(** * Server plugin loader (src/plugin-loader.js): embedding and properties

    The loader is embedded as a state-and-exception monad over a [World]
    made of the module-level registry [loadedPlugins], the routes mounted on
    the Express app, the git state of the plugin checkouts and an event
    trace (filesystem calls, imports, git commands, calls into plugin code,
    console output).  The read-only surroundings (configuration flags,
    filesystem, module contents) are an [Env].

    Conventions of the model:
    - thrown values are their message texts;
    - the code of a plugin acts on the host only through what it returns,
      throws, or pushes on the router it is handed;
    - the filesystem is read through functions of the path: a path is read
      in one phase only (the entries of the extensions directory before
      and after the update phase are the same, the insides of a plugin
      directory are read after it), so one function per call suffices;
    - the awaits of the loader are sequential, so [async] code is
      sequenced like plain code; only the teardown function, which starts
      all hooks before it awaits any, keeps the time at which a promise
      settles. *)

From Stdlib Require Import String Ascii List Arith Lia Bool.
From stdpp Require Import base option list gmap strings.

Import ListNotations.
Local Open Scope string_scope.
Local Open Scope list_scope.

(** ** Strings and paths (node:path, String.prototype) *)

Module Path.

(** [path.join(a, b)] for an entry name [b]: the two parts around one
    separator.  Normalisation of [.] and [..] segments is left to the
    filesystem functions of the environment, which are keyed by the
    joined text. *)
Definition join (a b : string) : string := a +:+ "/" +:+ b.

(** Part of [s] before its last separator, when it has one. *)
Fixpoint beforeLastSlash (s : string) : option string :=
  match s with
  | EmptyString => None
  | String c r =>
      match beforeLastSlash r with
      | Some d => Some (String c d)
      | None => if Ascii.eqb c "/" then Some EmptyString else None
      end
  end.

(** [path.dirname(p)] for a path without trailing separator. *)
Definition dirname (p : string) : string :=
  match beforeLastSlash p with
  | Some EmptyString => "/"
  | Some d => d
  | None => "."
  end.

(** Suffix of [s] that starts at its last dot, when it has one. *)
Fixpoint fromLastDot (s : string) : option string :=
  match s with
  | EmptyString => None
  | String c r =>
      match fromLastDot r with
      | Some e => Some e
      | None => if Ascii.eqb c "." then Some s else None
      end
  end.

(** [path.extname(name)] for a directory-entry name (no separator): the
    text from the last dot on; empty when there is no dot, when the only
    dot is the leading one, and for [..]. *)
Definition extname (name : string) : string :=
  match name with
  | String "."%char rest =>
      match fromLastDot rest with
      | Some e => if String.eqb name ".." then "" else e
      | None => ""
      end
  | _ => match fromLastDot name with Some e => e | None => "" end
  end.

(** [name.startsWith(p)] *)
Definition startsWith (name p : string) : bool := String.prefix p name.

End Path.

(** Lines 24 and 31. *)
Definition isCommonJS (file : string) : bool :=
  String.eqb (Path.extname file) ".js" || String.eqb (Path.extname file) ".cjs".

Definition isESModule (file : string) : bool :=
  String.eqb (Path.extname file) ".mjs".

(** ** JavaScript values *)

(** How a promise ends. *)
Inductive settle : Type :=
| Fulfilled
| Rejected (reason : string).

(** What calling a plugin function does: it throws at the call, returns a
    plain value, or returns a promise that settles [ticks] turns of the
    event loop later. *)
Inductive call_result : Type :=
| Throws (error : string)
| Returns
| Promise (ticks : nat) (s : settle).

(** A function exported by a plugin.  [fn_name] is its identity in the
    trace; [fn_routes] are the layers it pushes on the router it is handed
    (used when it is called as [init]). *)
Record func : Type := Func {
  fn_name : string;
  fn_routes : list string;
  fn_result : call_result
}.

(** Values read off module exports and JSON documents.  Numbers are only
    tested for truthiness here, so integers suffice. *)
#[warnings="-register-all"]
Inductive value : Type :=
| VUndefined
| VNull
| VBool (b : bool)
| VNumber (n : Z)
| VString (s : string)
| VObject (props : list (string * value))
| VFunction (f : func).

(** A module namespace object, as [import()] yields it. *)
Definition module : Type := list (string * value).

Definition typeof (v : value) : string :=
  match v with
  | VUndefined => "undefined"
  | VNull => "object"
  | VBool _ => "boolean"
  | VNumber _ => "number"
  | VString _ => "string"
  | VObject _ => "object"
  | VFunction _ => "function"
  end.

Definition truthy (v : value) : bool :=
  match v with
  | VUndefined | VNull => false
  | VBool b => b
  | VNumber n => negb (Z.eqb n 0)
  | VString s => negb (String.eqb s "")
  | VObject _ | VFunction _ => true
  end.

(** [a || b] *)
Definition or_else (a b : value) : value := if truthy a then a else b.

(** Own property of an object literal; absent properties are [undefined]. *)
Fixpoint lookupProp (props : list (string * value)) (k : string) : value :=
  match props with
  | [] => VUndefined
  | (k', v) :: rest => if String.eqb k' k then v else lookupProp rest k
  end.

(** [o.k] and [o[k]]: a TypeError on [null] and [undefined]; primitives and
    functions carry none of the properties read by the loader. *)
Definition getProp (o : value) (k : string) : string + value :=
  match o with
  | VUndefined => inl ("TypeError: Cannot read properties of undefined (reading '" +:+ k +:+ "')")
  | VNull => inl ("TypeError: Cannot read properties of null (reading '" +:+ k +:+ "')")
  | VObject props => inr (lookupProp props k)
  | _ => inr VUndefined
  end.

(** [o?.k] *)
Definition getPropOpt (o : value) (k : string) : value :=
  match getProp o k with
  | inl _ => VUndefined
  | inr v => v
  end.

(** Text of a value already known to be a string. *)
Definition stringOf (v : value) : string :=
  match v with
  | VString s => s
  | _ => ""
  end.

(** ** The identifier grammar (lines 162-164) *)

(** One character of the class [[a-z0-9_-]]. *)
Definition idChar (c : ascii) : bool :=
  let n := nat_of_ascii c in
  ((97 <=? n) && (n <=? 122) || (48 <=? n) && (n <=? 57)
   || (n =? 95) || (n =? 45))%nat.

Fixpoint allIdChars (s : string) : bool :=
  match s with
  | EmptyString => true
  | String c r => idChar c && allIdChars r
  end.

(** [/^[a-z0-9_-]+$/.test(id)]: one or more characters of the class, and
    nothing else up to the end of the text. *)
Definition isValidPluginID (id : string) : bool :=
  match id with
  | EmptyString => false
  | String _ _ => allIdChars id
  end.

(** ** Environment, events and world *)

(** Result of a call that may throw. *)
Inductive result (A : Type) : Type :=
| Ok (a : A)
| Throw (error : string).
Arguments Ok {A} a.
Arguments Throw {A} error.

(** A checkout as simple-git sees it: what each command of lines 259-278
    answers, [Throw] when it fails.  [repo_log] lists the commits of the
    range from [HEAD] to the tracking branch once the remote state is
    fetched ([log.total] is its length); [repo_upstream] is the commit of
    the tracking branch, to which a successful pull fast-forwards [HEAD].
    [HEAD] itself always resolves. *)
Record repo : Type := Repo {
  repo_isRepo : result bool;
  repo_fetch : result unit;
  repo_head : string;
  repo_tracking : result string;
  repo_upstream : string;
  repo_log : result (list string);
  repo_pull : result unit
}.

(** What the process reads but the loader does not change: the two
    configuration values (lines 10-11), the filesystem, the modules that
    [import()] evaluates, and whether the git command exists. *)
Record Env : Type := {
  enableServerPlugins : bool;
  enableServerPluginsAutoUpdate : bool;
  fs_exists : string -> bool;
  fs_readdir : string -> result (list string);
  fs_isDirectory : string -> result bool;
  fs_readJSON : string -> result value;
  import_module : string -> result module;
  git_installed : bool
}.

Inductive gitop : Type :=
| CheckIsRepo
| Fetch
| RevParseHead
| RevParseUpstream
| Log (from to : string)
| Pull.

(** Console output, one constructor per message of the source. *)
Inductive message : Type :=
| MsgLoadedCount (n : nat)
| MsgFailedToLoad (path error : string)
| MsgInitializing (path : string)
| MsgInfoNotFound
| MsgMissingField (field : string)
| MsgNoInit
| MsgInvalidID (id : string)
| MsgIDInUse (id : string)
| MsgAutoUpdating
| MsgGitMissing
| MsgUpdated (directory commit : string)
| MsgUpdateFailed (directory error : string)
| MsgUpToDate.

Inductive event : Type :=
| FsExists (p : string)
| FsReaddir (p : string)
| FsStat (p : string)
| FsReadFile (p : string)
| Import (p : string)
| CommandExists (cmd : string)
| Git (dir : string) (op : gitop)
| Call (fn : string)
| ConsoleLog (m : message)
| ConsoleError (m : message).

(** Mutable state.  [exitHooks] is the array allocated on line 41 and
    [pluginsToUpdate] the counter of line 252; [appRoutes] records the
    [app.use] calls. *)
Record World : Type := {
  loadedPlugins : gmap string module;
  appRoutes : list (string * list string);
  repos : gmap string repo;
  exitHooks : list func;
  pluginsToUpdate : nat;
  trace : list event
}.

Definition setLoadedPlugins (m : gmap string module) (w : World) : World :=
  {| loadedPlugins := m; appRoutes := appRoutes w; repos := repos w;
     exitHooks := exitHooks w; pluginsToUpdate := pluginsToUpdate w;
     trace := trace w |}.

Definition setAppRoutes (r : list (string * list string)) (w : World) : World :=
  {| loadedPlugins := loadedPlugins w; appRoutes := r; repos := repos w;
     exitHooks := exitHooks w; pluginsToUpdate := pluginsToUpdate w;
     trace := trace w |}.

Definition setRepos (r : gmap string repo) (w : World) : World :=
  {| loadedPlugins := loadedPlugins w; appRoutes := appRoutes w; repos := r;
     exitHooks := exitHooks w; pluginsToUpdate := pluginsToUpdate w;
     trace := trace w |}.

Definition setExitHooks (h : list func) (w : World) : World :=
  {| loadedPlugins := loadedPlugins w; appRoutes := appRoutes w;
     repos := repos w; exitHooks := h;
     pluginsToUpdate := pluginsToUpdate w; trace := trace w |}.

Definition setPluginsToUpdate (n : nat) (w : World) : World :=
  {| loadedPlugins := loadedPlugins w; appRoutes := appRoutes w;
     repos := repos w; exitHooks := exitHooks w; pluginsToUpdate := n;
     trace := trace w |}.

Definition setTrace (t : list event) (w : World) : World :=
  {| loadedPlugins := loadedPlugins w; appRoutes := appRoutes w;
     repos := repos w; exitHooks := exitHooks w;
     pluginsToUpdate := pluginsToUpdate w; trace := t |}.

(** ** The monad: state and exceptions *)

Definition M (A : Type) : Type := World -> result A * World.

Definition ret {A} (a : A) : M A := fun w => (Ok a, w).

Definition bind {A B} (m : M A) (k : A -> M B) : M B :=
  fun w =>
    match m w with
    | (Ok a, w') => k a w'
    | (Throw e, w') => (Throw e, w')
    end.

Definition throw {A} (e : string) : M A := fun w => (Throw e, w).

(** [try { m } catch (error) { handler error }]: what [m] did to the world
    before it threw stays done. *)
Definition tryCatch {A} (m : M A) (handler : string -> M A) : M A :=
  fun w =>
    match m w with
    | (Ok a, w') => (Ok a, w')
    | (Throw e, w') => handler e w'
    end.

Definition gets {A} (f : World -> A) : M A := fun w => (Ok (f w), w).

Definition modify (f : World -> World) : M unit := fun w => (Ok tt, f w).

Definition emit (e : event) : M unit :=
  modify (fun w => setTrace (trace w ++ [e]) w).

(** An environment call: recorded in the trace, then its value or its
    exception. *)
Definition perform {A} (e : event) (r : result A) : M A :=
  fun w =>
    (r, setTrace (trace w ++ [e]) w).

Declare Scope loader_scope.
Delimit Scope loader_scope with loader.
Notation "x <- c ;; k" := (bind c (fun x => k))
  (at level 100, c at next level, right associativity) : loader_scope.
Notation "c ;; k" := (bind c (fun _ => k))
  (at level 100, right associativity) : loader_scope.
Local Open Scope loader_scope.

Definition consoleLog (m : message) : M unit := emit (ConsoleLog m).
Definition consoleError (m : message) : M unit := emit (ConsoleError m).

(** ** simple-git *)

(** A directory without an entry in [repos] is not a checkout. *)
Definition noRepo : repo :=
  {| repo_isRepo := Ok false;
     repo_fetch := Throw "fatal: not a git repository";
     repo_head := "";
     repo_tracking := Throw "fatal: not a git repository";
     repo_upstream := "";
     repo_log := Throw "fatal: not a git repository";
     repo_pull := Throw "fatal: not a git repository" |}.

Definition repoAt (w : World) (dir : string) : repo :=
  match repos w !! dir with
  | Some r => r
  | None => noRepo
  end.

(** The checkout after a pull that succeeded: [HEAD] is the upstream
    commit and the range up to it is empty. *)
Definition fastForward (r : repo) : repo :=
  {| repo_isRepo := repo_isRepo r;
     repo_fetch := repo_fetch r;
     repo_head := repo_upstream r;
     repo_tracking := repo_tracking r;
     repo_upstream := repo_upstream r;
     repo_log := Ok [];
     repo_pull := repo_pull r |}.

Definition gitRead {A} (dir : string) (op : gitop) (f : repo -> result A) : M A :=
  fun w => (f (repoAt w dir), setTrace (trace w ++ [Git dir op]) w).

Definition checkIsRepo (dir : string) : M bool :=
  gitRead dir CheckIsRepo repo_isRepo.

Definition gitFetch (dir : string) : M unit :=
  gitRead dir Fetch repo_fetch.

Definition revparseHead (dir : string) : M string :=
  gitRead dir RevParseHead (fun r => Ok (repo_head r)).

Definition revparseUpstream (dir : string) : M string :=
  gitRead dir RevParseUpstream repo_tracking.

Definition gitLog (dir from to : string) : M (list string) :=
  gitRead dir (Log from to) repo_log.

Definition gitPull (dir : string) : M unit :=
  fun w =>
    let w' := setTrace (trace w ++ [Git dir Pull]) w in
    match repo_pull (repoAt w dir) with
    | Ok _ => (Ok tt, setRepos (<[dir := fastForward (repoAt w dir)]> (repos w)) w')
    | Throw e => (Throw e, w')
    end.

(** ** The loader *)

Section Loader.

Context (env : Env).

Definition existsSync (p : string) : M bool :=
  perform (FsExists p) (Ok (fs_exists env p)).

Definition readdirSync (p : string) : M (list string) :=
  perform (FsReaddir p) (fs_readdir env p).

(** [fs.statSync(p).isDirectory()] *)
Definition statIsDirectory (p : string) : M bool :=
  perform (FsStat p) (fs_isDirectory env p).

(** [JSON.parse(fs.readFileSync(p, 'utf8'))] *)
Definition readJSON (p : string) : M value :=
  perform (FsReadFile p) (fs_readJSON env p).

(** [await import(url.pathToFileURL(p).toString())] *)
Definition importModule (p : string) : M module :=
  perform (Import p) (import_module env p).

Definition commandExistsSync (cmd : string) : M bool :=
  perform (CommandExists cmd) (Ok (git_installed env)).

(** A property read inside the monad. *)
Definition readProp (o : value) (k : string) : M value :=
  match getProp o k with
  | inl e => throw e
  | inr v => ret v
  end.

(** [path.join(dir, main)] where [main] comes out of a JSON document:
    a TypeError unless it is a string. *)
Definition joinValue (dir : string) (main : value) : M string :=
  match main with
  | VString s => ret (Path.join dir s)
  | _ => throw "TypeError [ERR_INVALID_ARG_TYPE]: The 'path' argument must be of type string"
  end.

(** [await f(router)] on a fresh router: the call is traced; a throw and
    a rejected promise both surface as an exception at the [await];
    otherwise the stack of the router afterwards. *)
Definition awaitCall (f : func) : M (list string) :=
  emit (Call (fn_name f)) ;;
  match fn_result f with
  | Throws e => throw e
  | Returns => ret (fn_routes f)
  | Promise _ Fulfilled => ret (fn_routes f)
  | Promise _ (Rejected e) => throw e
  end.

(** Lines 183-188: [true] when the loop ran to its end, [false] when it
    returned [false] from the function. *)
Fixpoint requireFields (info : value) (fields : list string) : M bool :=
  match fields with
  | [] => ret true
  | field :: rest =>
      v <- readProp info field ;;
      if negb (String.eqb (typeof v) "string") then
        consoleError (MsgMissingField field) ;; ret false
      else requireFields info rest
  end.

(** [plugin.k || plugin.default?.k] *)
Definition exported (plugin : module) (k : string) : value :=
  or_else (lookupProp plugin k) (getPropOpt (lookupProp plugin "default") k).

(** Lines 175-201, the checks on the module's exports: [Some (id, init)]
    when they all pass, [None] when one of them logged its message and
    made [initPlugin] return [false]. *)
Definition validatePlugin (plugin : module) : M (option (string * func)) :=
  let info := exported plugin "info" in
  if negb (String.eqb (typeof info) "object") then
    consoleError MsgInfoNotFound ;; ret None
  else
    ok <- requireFields info ["id"; "name"; "description"] ;;
    if negb ok then ret None else
    match exported plugin "init" with
    | VFunction init =>
        idv <- readProp info "id" ;;
        let id := stringOf idv in
        if negb (isValidPluginID id) then
          consoleError (MsgInvalidID id) ;; ret None
        else ret (Some (id, init))
    | _ => consoleError MsgNoInit ;; ret None
    end.

(** Lines 203-225, once the checks have passed. *)
Definition registerPlugin (plugin : module) (id : string) (init : func) : M bool :=
  has <- gets (fun w => bool_decide (is_Some (loadedPlugins w !! id))) ;;
  if has then consoleError (MsgIDInUse id) ;; ret false else
  stack <- awaitCall init ;;
  modify (fun w => setLoadedPlugins (<[id := plugin]> (loadedPlugins w)) w) ;;
  (if (0 <? length stack)%nat
   then modify (fun w => setAppRoutes (appRoutes w ++ [("/api/plugins/" +:+ id, stack)]) w)
   else ret tt) ;;
  match exported plugin "exit" with
  | VFunction exit =>
      modify (fun w => setExitHooks (exitHooks w ++ [exit]) w) ;; ret true
  | _ => ret true
  end.

(** Lines 174-226. *)
Definition initPlugin (plugin : module) : M bool :=
  checked <- validatePlugin plugin ;;
  match checked with
  | Some (id, init) => registerPlugin plugin id init
  | None => ret false
  end.

(** Lines 145-155. *)
Definition loadFromFile (pluginFilePath : string) : M bool :=
  tryCatch
    (plugin <- importModule pluginFilePath ;;
     consoleLog (MsgInitializing pluginFilePath) ;;
     initPlugin plugin)
    (fun error =>
       consoleError (MsgFailedToLoad pluginFilePath error) ;; ret false).

(** Lines 124-135.  Inside the [try], [Some b] is [return b] and [None]
    is falling out of the block to the final [return false]. *)
Definition loadFromPackage (packageJsonPath : string) : M bool :=
  r <- tryCatch
         (packageJson <- readJSON packageJsonPath ;;
          main <- readProp packageJson "main" ;;
          if truthy main then
            pluginFilePath <- joinValue (Path.dirname packageJsonPath) main ;;
            b <- loadFromFile pluginFilePath ;;
            ret (Some b)
          else ret None)
         (fun error =>
            consoleError (MsgFailedToLoad packageJsonPath error) ;; ret None) ;;
  match r with
  | Some b => ret b
  | None => ret false
  end.

(** Lines 106-113. *)
Fixpoint probeEntries (pluginDirectoryPath : string) (fileTypes : list string) : M unit :=
  match fileTypes with
  | [] => ret tt
  | fileType :: rest =>
      let filePath := Path.join pluginDirectoryPath fileType in
      found <- existsSync filePath ;;
      loaded <- (if found then loadFromFile filePath else ret false) ;;
      if loaded then ret tt else probeEntries pluginDirectoryPath rest
  end.

(** Lines 87-114. *)
Definition loadFromDirectory (pluginDirectoryPath : string) : M unit :=
  files <- readdirSync pluginDirectoryPath ;;
  if (length files =? 0)%nat then ret tt else
  let packageJsonFilePath := Path.join pluginDirectoryPath "package.json" in
  found <- existsSync packageJsonFilePath ;;
  loaded <- (if found then loadFromPackage packageJsonFilePath else ret false) ;;
  if loaded then ret tt else
  probeEntries pluginDirectoryPath ["index.js"; "index.cjs"; "index.mjs"].

(** Lines 254-283, one turn of the loop. *)
Definition updateOne (pluginsPath directory : string) : M unit :=
  tryCatch
    (let pluginPath := Path.join pluginsPath directory in
     isRepo <- checkIsRepo pluginPath ;;
     if negb isRepo then ret tt else
     gitFetch pluginPath ;;
     commitHash <- revparseHead pluginPath ;;
     trackingBranch <- revparseUpstream pluginPath ;;
     log <- gitLog pluginPath commitHash trackingBranch ;;
     if (length log =? 0)%nat then ret tt else
     modify (fun w => setPluginsToUpdate (S (pluginsToUpdate w)) w) ;;
     gitPull pluginPath ;;
     latestCommit <- revparseHead pluginPath ;;
     consoleLog (MsgUpdated directory latestCommit))
    (fun error => consoleError (MsgUpdateFailed directory error)).

Fixpoint updateEach (pluginsPath : string) (directories : list string) : M unit :=
  match directories with
  | [] => ret tt
  | directory :: rest =>
      updateOne pluginsPath directory ;; updateEach pluginsPath rest
  end.

(** Line 239: [.filter(file => fs.statSync(...).isDirectory())] *)
Fixpoint filterDirectories (pluginsPath : string) (files : list string) : M (list string) :=
  match files with
  | [] => ret []
  | file :: rest =>
      isDir <- statIsDirectory (Path.join pluginsPath file) ;;
      dirs <- filterDirectories pluginsPath rest ;;
      ret (if isDir then file :: dirs else dirs)
  end.

(** Line 238 *)
Definition notHidden (file : string) : bool :=
  negb (Path.startsWith file ".").

(** Lines 232-288. *)
Definition updatePlugins (pluginsPath : string) : M unit :=
  if negb (enableServerPluginsAutoUpdate env) then ret tt else
  files <- readdirSync pluginsPath ;;
  directories <- filterDirectories pluginsPath (List.filter notHidden files) ;;
  if (length directories =? 0)%nat then ret tt else
  consoleLog MsgAutoUpdating ;;
  hasGit <- commandExistsSync "git" ;;
  if negb hasGit then consoleError MsgGitMissing else
  modify (setPluginsToUpdate 0) ;;
  updateEach pluginsPath directories ;;
  n <- gets pluginsToUpdate ;;
  if (n =? 0)%nat then consoleLog MsgUpToDate else ret tt.

(** Lines 63-77, one turn of the loop. *)
Definition loadEntry (pluginsPath file : string) : M unit :=
  let pluginFilePath := Path.join pluginsPath file in
  isDir <- statIsDirectory pluginFilePath ;;
  if isDir then loadFromDirectory pluginFilePath else
  if negb (isCommonJS file) && negb (isESModule file) then ret tt else
  loadFromFile pluginFilePath ;; ret tt.

Fixpoint loadEach (pluginsPath : string) (files : list string) : M unit :=
  match files with
  | [] => ret tt
  | file :: rest => loadEntry pluginsPath file ;; loadEach pluginsPath rest
  end.

(** What [loadPlugins] resolves to: [emptyFn] of line 42, or the closure
    of line 84 over the hooks collected in [exitHooks]. *)
Inductive teardown : Type :=
| EmptyFn
| AllExitHooks (hooks : list func).

(** Lines 40-85. *)
Definition loadPlugins (pluginsPath : string) : M teardown :=
  modify (setExitHooks []) ;;
  if negb (enableServerPlugins env) then ret EmptyFn else
  found <- existsSync pluginsPath ;;
  if negb found then ret EmptyFn else
  files <- readdirSync pluginsPath ;;
  if (length files =? 0)%nat then ret EmptyFn else
  updatePlugins pluginsPath ;;
  loadEach pluginsPath files ;;
  n <- gets (fun w => size (loadedPlugins w)) ;;
  (if (0 <? n)%nat then consoleLog (MsgLoadedCount n) else ret tt) ;;
  hooks <- gets exitHooks ;;
  ret (AllExitHooks hooks).

(** ** Teardown (line 84) *)

(** [exitHooks.map(exitFn => exitFn())]: the hooks are called one after
    the other, none is awaited; a hook that throws at the call ends the
    [map]. *)
Fixpoint mapCalls (hooks : list func) : M (list call_result) :=
  match hooks with
  | [] => ret []
  | exitFn :: rest =>
      emit (Call (fn_name exitFn)) ;;
      match fn_result exitFn with
      | Throws e => throw e
      | r => rs <- mapCalls rest ;; ret (r :: rs)
      end
  end.

(** The rejection that settles first among the results, the leftmost one
    when several settle in the same turn. *)
Fixpoint firstRejection (rs : list call_result) : option (nat * string) :=
  match rs with
  | [] => None
  | r :: rest =>
      match r, firstRejection rest with
      | Promise t (Rejected e), Some (t', e') =>
          if (t <=? t')%nat then Some (t, e) else Some (t', e')
      | Promise t (Rejected e), None => Some (t, e)
      | _, best => best
      end
  end.

(** [Promise.all(rs)]: fulfilled when no element rejects, otherwise
    rejected with the reason of the element that rejects first. *)
Definition promiseAll (rs : list call_result) : settle :=
  match firstRejection rs with
  | Some (_, e) => Rejected e
  | None => Fulfilled
  end.

(** What a call of the teardown function gives its caller. *)
Inductive teardown_result : Type :=
| TdUndefined
| TdThrew (error : string)
| TdPromise (s : settle).

Definition runTeardown (t : teardown) (w : World) : teardown_result * World :=
  match t with
  | EmptyFn => (TdUndefined, w)
  | AllExitHooks hooks =>
      match mapCalls hooks w with
      | (Ok rs, w') => (TdPromise (promiseAll rs), w')
      | (Throw e, w') => (TdThrew e, w')
      end
  end.

End Loader.

(** * Properties *)

(** ** The monad *)

Lemma bind_ok {A B} (m : M A) (k : A -> M B) w a w' :
  m w = (Ok a, w') -> bind m k w = k a w'.
Proof. intros H. unfold bind. now rewrite H. Qed.

Lemma bind_throw {A B} (m : M A) (k : A -> M B) w e w' :
  m w = (Throw e, w') -> bind m k w = (Throw e, w').
Proof. intros H. unfold bind. now rewrite H. Qed.

Lemma tryCatch_ok {A} (m : M A) h w a w' :
  m w = (Ok a, w') -> tryCatch m h w = (Ok a, w').
Proof. intros H. unfold tryCatch. now rewrite H. Qed.

Lemma tryCatch_throw {A} (m : M A) h w e w' :
  m w = (Throw e, w') -> tryCatch m h w = h e w'.
Proof. intros H. unfold tryCatch. now rewrite H. Qed.

(** The world with events appended to its trace. *)
Definition after (w : World) (evs : list event) : World :=
  setTrace (trace w ++ evs) w.

Lemma after_nil w : after w [] = w.
Proof. destruct w. unfold after, setTrace. simpl. now rewrite app_nil_r. Qed.

Lemma after_after w evs evs' : after (after w evs) evs' = after w (evs ++ evs').
Proof. unfold after, setTrace. simpl. now rewrite app_assoc. Qed.

Lemma emit_after e w : emit e w = (Ok tt, after w [e]).
Proof. reflexivity. Qed.

Lemma perform_after {A} e (r : result A) w : perform e r w = (r, after w [e]).
Proof. reflexivity. Qed.

(** ** The identifier grammar *)

(** The class [[a-z0-9_-]], character by character. *)
Definition idAlphabet : list ascii :=
  list_ascii_of_string "abcdefghijklmnopqrstuvwxyz0123456789_-".

Lemma idChar_alphabet c : idChar c = true <-> In c idAlphabet.
Proof.
  split.
  - intros H.
    assert (Hc : existsb (Ascii.eqb c) idAlphabet = true).
    { destruct c as [[] [] [] [] [] [] [] []]; vm_compute in H; try discriminate H; reflexivity. }
    apply existsb_exists in Hc. destruct Hc as [x [Hin Hx]].
    apply Ascii.eqb_eq in Hx. now subst.
  - intros H. unfold idAlphabet in H. simpl in H.
    repeat (destruct H as [<- | H]; [reflexivity |]). destruct H.
Qed.

Lemma allIdChars_spec s :
  allIdChars s = true <-> Forall (fun c => In c idAlphabet) (list_ascii_of_string s).
Proof.
  induction s as [| c r IH]; simpl.
  - split; [constructor | reflexivity].
  - rewrite andb_true_iff, IH, idChar_alphabet. split.
    + intros [Hc Hr]. now constructor.
    + intros H. inversion H; subst. now split.
Qed.

(** [isValidPluginID] accepts exactly the non-empty texts over lowercase
    letters, digits, underscore and hyphen. *)
Lemma isValidPluginID_spec id :
  isValidPluginID id = true <->
  id <> EmptyString /\ Forall (fun c => In c idAlphabet) (list_ascii_of_string id).
Proof.
  destruct id as [| c r].
  - simpl. split; [discriminate | intros [H _]; now destruct H].
  - unfold isValidPluginID. rewrite allIdChars_spec. split.
    + intros H. split; [discriminate | exact H].
    + now intros [_ H].
Qed.

(** ** Validation of a module's exports *)

(** The module exports, directly or through its default export, an info
    object with three texts, an init function, and an id of the grammar. *)
Definition accepts (plugin : module) (id : string) (init : func) : Prop :=
  exists props name description,
    exported plugin "info" = VObject props /\
    lookupProp props "id" = VString id /\
    lookupProp props "name" = VString name /\
    lookupProp props "description" = VString description /\
    exported plugin "init" = VFunction init /\
    isValidPluginID id = true.

Lemma typeof_string v : String.eqb (typeof v) "string" = true -> exists s, v = VString s.
Proof. destruct v; simpl; try discriminate. eauto. Qed.

Lemma typeof_object v :
  String.eqb (typeof v) "object" = true -> v = VNull \/ exists props, v = VObject props.
Proof. destruct v; simpl; try discriminate; eauto. Qed.

Lemma validatePlugin_accepts plugin id init w :
  accepts plugin id init -> validatePlugin plugin w = (Ok (Some (id, init)), w).
Proof.
  intros (props & name & description & Hinfo & Hid & Hname & Hdesc & Hinit & Hvalid).
  unfold validatePlugin. rewrite Hinfo, Hinit. simpl.
  unfold bind, readProp. simpl. rewrite Hid, Hname, Hdesc. simpl.
  now rewrite Hvalid.
Qed.

Lemma validatePlugin_sound plugin id init w w' :
  validatePlugin plugin w = (Ok (Some (id, init)), w') ->
  accepts plugin id init /\ w' = w.
Proof.
  unfold validatePlugin.
  destruct (String.eqb (typeof (exported plugin "info")) "object") eqn:Hty; simpl;
    [| unfold bind; simpl; discriminate].
  apply typeof_object in Hty. destruct Hty as [Hnull | [props Hprops]].
  - rewrite Hnull. unfold bind, readProp. simpl. discriminate.
  - rewrite Hprops. unfold bind, readProp. simpl.
    destruct (String.eqb (typeof (lookupProp props "id")) "string") eqn:Hid; simpl;
      [| discriminate].
    destruct (String.eqb (typeof (lookupProp props "name")) "string") eqn:Hname; simpl;
      [| discriminate].
    destruct (String.eqb (typeof (lookupProp props "description")) "string") eqn:Hdesc;
      simpl; [| discriminate].
    apply typeof_string in Hid, Hname, Hdesc.
    destruct Hid as [i Hi], Hname as [n Hn], Hdesc as [d Hd].
    destruct (exported plugin "init") eqn:Hinit; simpl; try discriminate.
    rewrite Hi. simpl.
    destruct (isValidPluginID i) eqn:Hvalid; simpl; [| discriminate].
    unfold ret. intros H. injection H as <- <- <-.
    split; [| reflexivity]. exists props, n, d. repeat split; assumption.
Qed.

(** Validation lets a module through exactly when it is well formed, and
    then leaves the world as it was. *)
Lemma validatePlugin_iff plugin id init w :
  validatePlugin plugin w = (Ok (Some (id, init)), w) <-> accepts plugin id init.
Proof.
  split.
  - intros H. now apply validatePlugin_sound in H.
  - apply validatePlugin_accepts.
Qed.

(** The rejections, in the order in which the source tests for them. *)

Lemma validatePlugin_no_info plugin w :
  String.eqb (typeof (exported plugin "info")) "object" = false ->
  validatePlugin plugin w = (Ok None, after w [ConsoleError MsgInfoNotFound]).
Proof. intros H. unfold validatePlugin. now rewrite H. Qed.

(** The first of the three fields that is not a text of [props]. *)
Fixpoint firstMissing (props : list (string * value)) (fields : list string) : option string :=
  match fields with
  | [] => None
  | field :: rest =>
      match lookupProp props field with
      | VString _ => firstMissing props rest
      | _ => Some field
      end
  end.

Lemma requireFields_object props fields w :
  requireFields (VObject props) fields w =
  match firstMissing props fields with
  | Some field => (Ok false, after w [ConsoleError (MsgMissingField field)])
  | None => (Ok true, w)
  end.
Proof.
  induction fields as [| field rest IH]; simpl; [reflexivity |].
  unfold bind, readProp. simpl.
  destruct (lookupProp props field); simpl; try reflexivity. apply IH.
Qed.

Lemma validatePlugin_missing_field plugin props field w :
  exported plugin "info" = VObject props ->
  firstMissing props ["id"; "name"; "description"] = Some field ->
  validatePlugin plugin w = (Ok None, after w [ConsoleError (MsgMissingField field)]).
Proof.
  intros Hinfo Hmiss. unfold validatePlugin. rewrite Hinfo.
  change (negb (String.eqb (typeof (VObject props)) "object")) with false. cbv iota.
  unfold bind at 1. rewrite requireFields_object, Hmiss. reflexivity.
Qed.

Lemma validatePlugin_no_init plugin props w :
  exported plugin "info" = VObject props ->
  firstMissing props ["id"; "name"; "description"] = None ->
  (forall f, exported plugin "init" <> VFunction f) ->
  validatePlugin plugin w = (Ok None, after w [ConsoleError MsgNoInit]).
Proof.
  intros Hinfo Hmiss Hinit. unfold validatePlugin. rewrite Hinfo.
  change (negb (String.eqb (typeof (VObject props)) "object")) with false. cbv iota.
  unfold bind at 1. rewrite requireFields_object, Hmiss. simpl.
  destruct (exported plugin "init"); try reflexivity. now destruct (Hinit f).
Qed.

Lemma validatePlugin_invalid_id plugin props init w :
  exported plugin "info" = VObject props ->
  firstMissing props ["id"; "name"; "description"] = None ->
  exported plugin "init" = VFunction init ->
  isValidPluginID (stringOf (lookupProp props "id")) = false ->
  validatePlugin plugin w =
  (Ok None, after w [ConsoleError (MsgInvalidID (stringOf (lookupProp props "id")))]).
Proof.
  intros Hinfo Hmiss Hinit Hid. unfold validatePlugin. rewrite Hinfo, Hinit.
  change (negb (String.eqb (typeof (VObject props)) "object")) with false. cbv iota.
  unfold bind at 1. rewrite requireFields_object, Hmiss. simpl.
  unfold bind, readProp. simpl. now rewrite Hid.
Qed.

(** An info export that is [null] passes the [typeof] test of line 176 and
    makes the field loop throw. *)
Lemma validatePlugin_null_info plugin w :
  exported plugin "info" = VNull ->
  validatePlugin plugin w =
  (Throw "TypeError: Cannot read properties of null (reading 'id')", w).
Proof. intros Hinfo. unfold validatePlugin. now rewrite Hinfo. Qed.

(** The failing module of the null-info case: [module.exports = { info:
    null, init() {} }], seen through [import()]. *)
Definition nullInfoPlugin : module :=
  [("default", VObject [("info", VNull);
                        ("init", VFunction (Func "init" [] Returns))])].

(** C3: a module whose info export is [null] is not turned down with the
    missing-descriptor message: [typeof null] is ["object"], the test of
    line 176 lets it through, and [initPlugin] throws a TypeError at the
    first field read, with nothing logged. *)
Theorem initPlugin_null_info_throws (w : World) :
  initPlugin nullInfoPlugin w =
  (Throw "TypeError: Cannot read properties of null (reading 'id')", w).
Proof. reflexivity. Qed.

(** ** Registration *)

(** The call [await init(router)] ends in an exception. *)
Definition failsWith (f : func) (e : string) : Prop :=
  fn_result f = Throws e \/ exists t, fn_result f = Promise t (Rejected e).

(** The call [await init(router)] ends normally. *)
Definition completes (f : func) : Prop :=
  fn_result f = Returns \/ exists t, fn_result f = Promise t Fulfilled.

(** The namespace of a plugin on the host app (line 217). *)
Definition mountPoint (id : string) : string := "/api/plugins/" +:+ id.

(** The world after a registration that went through. *)
Definition registered (plugin : module) (id : string) (init : func) (w : World) : World :=
  let w1 := setLoadedPlugins (<[id := plugin]> (loadedPlugins w)) (after w [Call (fn_name init)]) in
  let w2 := match fn_routes init with
            | [] => w1
            | _ :: _ => setAppRoutes (appRoutes w ++ [(mountPoint id, fn_routes init)]) w1
            end in
  match exported plugin "exit" with
  | VFunction exit => setExitHooks (exitHooks w ++ [exit]) w2
  | _ => w2
  end.

Lemma has_false (w : World) id :
  loadedPlugins w !! id = None ->
  bool_decide (is_Some (loadedPlugins w !! id)) = false.
Proof. intros H. apply bool_decide_eq_false_2. rewrite H. now intros [x Hx]. Qed.

Lemma has_true (w : World) id p :
  loadedPlugins w !! id = Some p ->
  bool_decide (is_Some (loadedPlugins w !! id)) = true.
Proof. intros H. apply bool_decide_eq_true_2. rewrite H. eauto. Qed.

Lemma registerPlugin_duplicate plugin id init w first :
  loadedPlugins w !! id = Some first ->
  registerPlugin plugin id init w = (Ok false, after w [ConsoleError (MsgIDInUse id)]).
Proof.
  intros H. unfold registerPlugin, bind, gets. now rewrite (has_true _ _ _ H).
Qed.

Lemma registerPlugin_init_fails plugin id init w e :
  loadedPlugins w !! id = None -> failsWith init e ->
  registerPlugin plugin id init w = (Throw e, after w [Call (fn_name init)]).
Proof.
  intros H Hf. unfold registerPlugin, bind, gets. rewrite (has_false _ _ H).
  unfold awaitCall, bind. simpl.
  destruct Hf as [-> | [t ->]]; reflexivity.
Qed.

Lemma registerPlugin_ok plugin id init w :
  loadedPlugins w !! id = None -> completes init ->
  registerPlugin plugin id init w = (Ok true, registered plugin id init w).
Proof.
  intros H Hc. unfold registerPlugin, bind, gets. rewrite (has_false _ _ H).
  unfold awaitCall, bind, registered. simpl.
  destruct Hc as [-> | [t ->]]; simpl;
    destruct (fn_routes init) as [| r rs]; simpl;
    destruct (exported plugin "exit"); reflexivity.
Qed.

Lemma initPlugin_accepted plugin id init w :
  accepts plugin id init -> initPlugin plugin w = registerPlugin plugin id init w.
Proof.
  intros H. unfold initPlugin. now rewrite (bind_ok _ _ _ _ _ (validatePlugin_accepts _ _ _ w H)).
Qed.

(** ** Invariants of the loader *)

(** The directories kept by line 239 are among the names it was given. *)
Lemma filterDirectories_subset env root files w dirs w' :
  filterDirectories env root files w = (Ok dirs, w') ->
  forall d, In d dirs -> In d files.
Proof.
  revert w dirs w'. induction files as [| file rest IH]; simpl; intros w dirs w' Hrun d Hd.
  - unfold ret in Hrun. injection Hrun as <- <-. exact Hd.
  - unfold bind at 1, statIsDirectory in Hrun. rewrite perform_after in Hrun.
    destruct (fs_isDirectory env (Path.join root file)) as [isDir | e]; [| discriminate].
    unfold bind in Hrun.
    destruct (filterDirectories env root rest _) as [[ds | e] w1] eqn:Hrest; [| discriminate].
    unfold ret in Hrun. injection Hrun as <- <-.
    destruct isDir.
    + destruct Hd as [<- | Hd]; [now left | right; eapply IH; eauto].
    + right. eapply IH; eauto.
Qed.

Definition isGit (e : event) : bool :=
  match e with
  | Git _ _ => true
  | _ => false
  end.

(** [m] keeps [I]: whatever it returns or throws, a world in [I] ends in
    [I]. *)
Definition preserves (I : World -> Prop) {A} (m : M A) : Prop :=
  forall w, I w -> I (snd (m w)).

Section Invariant.

Context (env : Env) (I : World -> Prop) (allowed : event -> Prop).

Local Set Default Proof Using "All".

Hypothesis I_after : forall w e, allowed e -> I w -> I (after w [e]).
Hypothesis allowed_other : forall e, isGit e = false -> allowed e.
Hypothesis I_register : forall w id plugin,
    loadedPlugins w !! id = None -> I w ->
    I (setLoadedPlugins (<[id := plugin]> (loadedPlugins w)) w).
Hypothesis I_routes : forall w r, I w -> I (setAppRoutes r w).
Hypothesis I_hooks : forall w h, I w -> I (setExitHooks h w).
Hypothesis I_counter : forall w n, I w -> I (setPluginsToUpdate n w).
Hypothesis I_pull : forall w dir,
    allowed (Git dir Pull) -> I w ->
    I (setRepos (<[dir := fastForward (repoAt w dir)]> (repos w)) w).

Lemma preserves_ret {A} (a : A) : preserves I (ret a).
Proof. intros w H. exact H. Qed.

Lemma preserves_throw {A} e : preserves I (@throw A e).
Proof. intros w H. exact H. Qed.

Lemma preserves_gets {A} (f : World -> A) : preserves I (gets f).
Proof. intros w H. exact H. Qed.

Lemma preserves_bind {A B} (m : M A) (k : A -> M B) :
  preserves I m -> (forall a, preserves I (k a)) -> preserves I (bind m k).
Proof.
  intros Hm Hk w Hw. specialize (Hm w Hw). unfold bind.
  destruct (m w) as [[a | e] w']; simpl in *; [now apply Hk | exact Hm].
Qed.

Lemma preserves_tryCatch {A} (m : M A) h :
  preserves I m -> (forall e, preserves I (h e)) -> preserves I (tryCatch m h).
Proof.
  intros Hm Hh w Hw. specialize (Hm w Hw). unfold tryCatch.
  destruct (m w) as [[a | e] w']; simpl in *; [exact Hm | now apply Hh].
Qed.

Lemma preserves_perform {A} e (r : result A) : allowed e -> preserves I (perform e r).
Proof. intros He w Hw. now apply I_after. Qed.

Lemma preserves_emit e : allowed e -> preserves I (emit e).
Proof. intros He w Hw. now apply I_after. Qed.



(** Closes goals [preserves I m] for code made of the combinators above
    and of case distinctions. *)
Lemma preserves_readProp o k : preserves I (readProp o k).
Proof. unfold readProp. destruct (getProp o k); intros w H; exact H. Qed.

Ltac keep :=
  repeat first
    [ solve [auto 2]
    | apply preserves_readProp
    | apply preserves_ret
    | apply preserves_throw
    | apply preserves_gets
    | apply preserves_bind; [| intros ?]
    | apply preserves_tryCatch; [| intros ?]
    | apply preserves_perform; apply allowed_other; reflexivity
    | apply preserves_emit; apply allowed_other; reflexivity
    | match goal with
      | |- preserves _ (if ?b then _ else _) => destruct b
      | |- preserves _ (match ?x with _ => _ end) => destruct x
      | |- preserves _ (let _ := _ in _) => cbv zeta
      end
    | assumption ].

Lemma preserves_requireFields info fields : preserves I (requireFields info fields).
Proof.
  induction fields as [| field rest IH]; simpl; [apply preserves_ret |].
  unfold readProp, consoleError. keep.
Qed.

Lemma preserves_validatePlugin plugin : preserves I (validatePlugin plugin).
Proof.
  unfold validatePlugin, consoleError, readProp.
  pose proof (preserves_requireFields (exported plugin "info")). keep.
Qed.

Lemma preserves_registerPlugin plugin id init : preserves I (registerPlugin plugin id init).
Proof.
  intros w Hw.
  destruct (loadedPlugins w !! id) as [p |] eqn:Hid.
  - rewrite (registerPlugin_duplicate _ _ _ _ _ Hid). simpl.
    apply I_after; [now apply allowed_other | exact Hw].
  - assert (Hcall : I (after w [Call (fn_name init)])).
    { apply I_after; [now apply allowed_other | exact Hw]. }
    assert (Hcase : completes init \/ exists e, failsWith init e).
    { unfold completes, failsWith.
      destruct (fn_result init) as [e | | t [| e]]; eauto 6. }
    destruct Hcase as [Hc | [e He]].
    + rewrite (registerPlugin_ok _ _ _ _ Hid Hc). unfold registered. simpl.
      assert (Hreg : I (setLoadedPlugins (<[id := plugin]> (loadedPlugins w))
                          (after w [Call (fn_name init)]))).
      { now apply (I_register (after w [Call (fn_name init)])). }
      destruct (fn_routes init); destruct (exported plugin "exit");
        repeat first [ exact Hreg | apply I_hooks | apply I_routes ].
    + rewrite (registerPlugin_init_fails _ _ _ _ _ Hid He). exact Hcall.
Qed.

Lemma preserves_initPlugin plugin : preserves I (initPlugin plugin).
Proof.
  unfold initPlugin.
  pose proof (preserves_validatePlugin plugin).
  pose proof (preserves_registerPlugin plugin).
  keep.
Qed.

Lemma preserves_loadFromFile p : preserves I (loadFromFile env p).
Proof.
  unfold loadFromFile, importModule, consoleLog, consoleError.
  pose proof preserves_initPlugin. keep.
Qed.

Lemma preserves_loadFromPackage p : preserves I (loadFromPackage env p).
Proof.
  unfold loadFromPackage, readJSON, readProp, joinValue, consoleError.
  pose proof preserves_loadFromFile. keep; auto.
Qed.

Lemma preserves_probeEntries dir fileTypes : preserves I (probeEntries env dir fileTypes).
Proof.
  induction fileTypes as [| fileType rest IH]; simpl; [apply preserves_ret |].
  unfold existsSync. pose proof preserves_loadFromFile. keep; auto.
Qed.

Lemma preserves_loadFromDirectory dir : preserves I (loadFromDirectory env dir).
Proof.
  unfold loadFromDirectory, readdirSync, existsSync.
  pose proof preserves_loadFromPackage. pose proof preserves_probeEntries.
  keep; auto.
Qed.

Lemma preserves_loadEntry root file : preserves I (loadEntry env root file).
Proof.
  unfold loadEntry, statIsDirectory.
  pose proof preserves_loadFromDirectory. pose proof preserves_loadFromFile.
  keep; auto.
Qed.

Lemma preserves_loadEach root files : preserves I (loadEach env root files).
Proof.
  induction files as [| file rest IH]; simpl; [apply preserves_ret |].
  pose proof preserves_loadEntry. keep; auto.
Qed.







End Invariant.

(** ** The registry only grows *)

(** A record of the registry is never removed nor replaced by the loading
    of further candidates. *)
Lemma loadEntry_keeps_record env root file id p w :
  loadedPlugins w !! id = Some p ->
  loadedPlugins (snd (loadEntry env root file w)) !! id = Some p.
Proof.
  apply (preserves_loadEntry env (fun w => loadedPlugins w !! id = Some p) (fun _ => True));
    try (intros; assumption); try (intros; exact Logic.I).
  intros w' id' plugin Hnone Hsome. simpl.
  rewrite lookup_insert_ne; [exact Hsome | congruence].
Qed.

Lemma loadEach_keeps_record env root files id p w :
  loadedPlugins w !! id = Some p ->
  loadedPlugins (snd (loadEach env root files w)) !! id = Some p.
Proof.
  apply (preserves_loadEach env (fun w => loadedPlugins w !! id = Some p) (fun _ => True));
    try (intros; assumption); try (intros; exact Logic.I).
  intros w' id' plugin Hnone Hsome. simpl.
  rewrite lookup_insert_ne; [exact Hsome | congruence].
Qed.

(** ** Sample disks and modules *)

Definition emptyWorld : World :=
  {| loadedPlugins := ∅; appRoutes := []; repos := ∅; exitHooks := [];
     pluginsToUpdate := 0; trace := [] |}.

Fixpoint assoc {A} (table : list (string * A)) (p : string) : option A :=
  match table with
  | [] => None
  | (k, v) :: rest => if String.eqb k p then Some v else assoc rest p
  end.

(** An environment from tables: the directories with their listings, the
    regular files, the JSON documents and the modules, by path.  A name
    that a listing has but that is neither a directory nor a file of the
    tables behaves as a dangling link: [statSync] throws on it. *)
Definition disk (enabled autoUpdate git : bool)
    (dirs : list (string * list string)) (files : list string)
    (json : list (string * value)) (modules : list (string * module)) : Env :=
  {| enableServerPlugins := enabled;
     enableServerPluginsAutoUpdate := autoUpdate;
     fs_exists := fun p =>
       match assoc dirs p with
       | Some _ => true
       | None => existsb (String.eqb p) files
       end;
     fs_readdir := fun p =>
       match assoc dirs p with
       | Some l => Ok l
       | None => Throw "ENOENT: no such file or directory, scandir"
       end;
     fs_isDirectory := fun p =>
       match assoc dirs p with
       | Some _ => Ok true
       | None => if existsb (String.eqb p) files then Ok false
                 else Throw "ENOENT: no such file or directory, stat"
       end;
     fs_readJSON := fun p =>
       match assoc json p with
       | Some v => Ok v
       | None => Throw "ENOENT: no such file or directory, open"
       end;
     import_module := fun p =>
       match assoc modules p with
       | Some m => Ok m
       | None => Throw "Error [ERR_MODULE_NOT_FOUND]: Cannot find module"
       end;
     git_installed := git |}.

Definition descriptor (id : string) : value :=
  VObject [("id", VString id); ("name", VString "name"); ("description", VString "text")].

(** A module with flat exports: one route, no exit hook. *)
Definition fooInit : func := Func "foo.init" ["/hello"] Returns.
Definition fooPlugin : module :=
  [("info", descriptor "foo"); ("init", VFunction fooInit)].

(** A module behind a default export: no route, an exit hook. *)
Definition barInit : func := Func "bar.init" [] (Promise 1 Fulfilled).
Definition barExit : func := Func "bar.exit" [] (Promise 1 Fulfilled).
Definition barPlugin : module :=
  [("default", VObject [("info", descriptor "bar"); ("init", VFunction barInit);
                        ("exit", VFunction barExit)])].

(** A second module that also declares the id [foo]. *)
Definition fooTwinInit : func := Func "twin.init" ["/other"] Returns.
Definition fooTwin : module :=
  [("info", descriptor "foo"); ("init", VFunction fooTwinInit)].

(** A module whose init rejects. *)
Definition brokenInit : func := Func "broken.init" ["/never"] (Promise 2 (Rejected "boom")).
Definition brokenExit : func := Func "broken.exit" [] Returns.
Definition brokenPlugin : module :=
  [("info", descriptor "broken"); ("init", VFunction brokenInit);
   ("exit", VFunction brokenExit)].

Lemma accepts_fooPlugin : accepts fooPlugin "foo" fooInit.
Proof. exists [("id", VString "foo"); ("name", VString "name"); ("description", VString "text")], "name", "text". repeat split; reflexivity. Defined.

Lemma accepts_fooTwin : accepts fooTwin "foo" fooTwinInit.
Proof. exists [("id", VString "foo"); ("name", VString "name"); ("description", VString "text")], "name", "text". repeat split; reflexivity. Defined.

Lemma accepts_barPlugin : accepts barPlugin "bar" barInit.
Proof. exists [("id", VString "bar"); ("name", VString "name"); ("description", VString "text")], "name", "text". repeat split; reflexivity. Defined.


(** The end-to-end disk of the specification: [foo.js], [bar/] with a
    manifest that names [entry.js], and [baz.js] that fails to import. *)
Definition demoDisk : Env :=
  disk true true true
    [("plugins", ["foo.js"; "bar"; "baz.js"]);
     ("plugins/bar", ["package.json"; "entry.js"])]
    ["plugins/foo.js"; "plugins/baz.js"; "plugins/bar/package.json"; "plugins/bar/entry.js"]
    [("plugins/bar/package.json", VObject [("main", VString "entry.js")])]
    [("plugins/foo.js", fooPlugin); ("plugins/bar/entry.js", barPlugin)].

Example demoDisk_loads :
  let r := loadPlugins demoDisk "plugins" emptyWorld in
  fst r = Ok (AllExitHooks [barExit]) /\
  map fst (map_to_list (loadedPlugins (snd r))) = ["foo"; "bar"] /\
  appRoutes (snd r) = [("/api/plugins/foo", ["/hello"])] /\
  In (ConsoleError (MsgFailedToLoad "plugins/baz.js"
        "Error [ERR_MODULE_NOT_FOUND]: Cannot find module")) (trace (snd r)).
Proof. vm_compute. repeat split. auto 30. Qed.

(** ** Registration: duplicates, failing init, routes *)

Lemma loadedPlugins_registered plugin id init w :
  loadedPlugins (registered plugin id init w) = <[id := plugin]> (loadedPlugins w).
Proof.
  unfold registered. destruct (fn_routes init); destruct (exported plugin "exit"); reflexivity.
Qed.

Lemma appRoutes_registered plugin id init w :
  appRoutes (registered plugin id init w) =
  match fn_routes init with
  | [] => appRoutes w
  | _ :: _ => appRoutes w ++ [(mountPoint id, fn_routes init)]
  end.
Proof.
  unfold registered. destruct (fn_routes init); destruct (exported plugin "exit"); reflexivity.
Qed.

(** C4: when two modules declare the same id, the one registered first
    keeps it.  After [first] is registered and any further candidates
    [files] are loaded, [initPlugin second] returns [false] with the
    already-in-use message as its only effect (so the init of [second] is
    not called), and the registry still maps the id to [first], with as
    many records as before. *)
Theorem duplicate_id_first_wins env root files
    (first second : module) id init1 init2 (w : World) :
  accepts first id init1 -> completes init1 -> loadedPlugins w !! id = None ->
  accepts second id init2 ->
  let w1 := snd (initPlugin first w) in
  let w2 := snd (loadEach env root files w1) in
  let w3 := snd (initPlugin second w2) in
  fst (initPlugin first w) = Ok true /\
  loadedPlugins w1 !! id = Some first /\
  initPlugin second w2 = (Ok false, after w2 [ConsoleError (MsgIDInUse id)]) /\
  trace w3 = trace w2 ++ [ConsoleError (MsgIDInUse id)] /\
  loadedPlugins w3 !! id = Some first /\
  size (loadedPlugins w3) = size (loadedPlugins w2) /\
  appRoutes w3 = appRoutes w2 /\ exitHooks w3 = exitHooks w2.
Proof.
  intros Hfirst Hdone Hfresh Hsecond w1 w2 w3.
  assert (H1 : initPlugin first w = (Ok true, registered first id init1 w)).
  { rewrite (initPlugin_accepted _ _ _ _ Hfirst). now apply registerPlugin_ok. }
  assert (Hw1 : loadedPlugins w1 !! id = Some first).
  { subst w1. rewrite H1. simpl. rewrite loadedPlugins_registered. apply lookup_insert_eq. }
  assert (Hw2 : loadedPlugins w2 !! id = Some first).
  { subst w2. now apply loadEach_keeps_record. }
  assert (H3 : initPlugin second w2 = (Ok false, after w2 [ConsoleError (MsgIDInUse id)])).
  { rewrite (initPlugin_accepted _ _ _ _ Hsecond).
    now apply registerPlugin_duplicate with (first := first). }
  subst w3. rewrite H3, H1. simpl. repeat split; try reflexivity; assumption.
Qed.

Lemma duplicate_id_first_wins_witness :
  let w2 := snd (loadEach demoDisk "plugins" ["baz.js"] (snd (initPlugin fooPlugin emptyWorld))) in
  initPlugin fooTwin w2 = (Ok false, after w2 [ConsoleError (MsgIDInUse "foo")]) /\
  loadedPlugins (snd (initPlugin fooTwin w2)) !! "foo" = Some fooPlugin.
Proof.
  pose proof (duplicate_id_first_wins demoDisk "plugins" ["baz.js"]
                fooPlugin fooTwin "foo" fooInit fooTwinInit emptyWorld
                accepts_fooPlugin (or_introl eq_refl) eq_refl accepts_fooTwin) as H.
  cbv zeta in H. destruct H as (_ & _ & H3 & _ & H5 & _).
  split; [exact H3 | exact H5].
Defined.

(** C8: a module that passes validation, has a fresh id and whose init
    completes is recorded under its id and reported as loaded; its router
    is mounted at [/api/plugins/id] when init pushed at least one layer on
    it, and nothing is mounted when it pushed none. *)
Theorem routes_mounted_iff_any plugin id init (w : World) :
  accepts plugin id init -> loadedPlugins w !! id = None -> completes init ->
  let w' := snd (initPlugin plugin w) in
  fst (initPlugin plugin w) = Ok true /\
  loadedPlugins w' = <[id := plugin]> (loadedPlugins w) /\
  (fn_routes init <> [] ->
   appRoutes w' = appRoutes w ++ [("/api/plugins/" +:+ id, fn_routes init)]) /\
  (fn_routes init = [] -> appRoutes w' = appRoutes w).
Proof.
  intros Hacc Hfresh Hdone w'. subst w'.
  rewrite (initPlugin_accepted _ _ _ _ Hacc), (registerPlugin_ok _ _ _ _ Hfresh Hdone).
  simpl. rewrite loadedPlugins_registered, appRoutes_registered.
  repeat split.
  - intros Hne. destruct (fn_routes init); [now destruct Hne | reflexivity].
  - intros ->. reflexivity.
Qed.

Lemma routes_mounted_iff_any_witness :
  appRoutes (snd (initPlugin fooPlugin emptyWorld)) = [("/api/plugins/foo", ["/hello"])] /\
  appRoutes (snd (initPlugin barPlugin emptyWorld)) = [] /\
  fst (initPlugin barPlugin emptyWorld) = Ok true /\
  loadedPlugins (snd (initPlugin barPlugin emptyWorld)) = <["bar" := barPlugin]> ∅.
Proof.
  pose proof (routes_mounted_iff_any fooPlugin "foo" fooInit emptyWorld
                accepts_fooPlugin eq_refl (or_introl eq_refl)) as Hfoo.
  pose proof (routes_mounted_iff_any barPlugin "bar" barInit emptyWorld
                accepts_barPlugin eq_refl (or_intror (ex_intro _ 1 eq_refl))) as Hbar.
  cbv zeta in Hfoo, Hbar.
  destruct Hfoo as (_ & _ & Hmount & _).
  destruct Hbar as (Hret & Hreg & _ & Hnone).
  split; [apply Hmount; discriminate |].
  split; [now apply Hnone |].
  split; [exact Hret | exact Hreg].
Defined.

(** ** Loading one file *)

Lemma loadFromFile_imported env p plugin w :
  import_module env p = Ok plugin ->
  loadFromFile env p w =
  match initPlugin plugin (after w [Import p; ConsoleLog (MsgInitializing p)]) with
  | (Ok b, w') => (Ok b, w')
  | (Throw e, w') => (Ok false, after w' [ConsoleError (MsgFailedToLoad p e)])
  end.
Proof.
  intros H. unfold loadFromFile, tryCatch, bind, importModule, consoleLog, consoleError.
  rewrite perform_after, H, emit_after, after_after. simpl.
  destruct (initPlugin plugin _) as [[b | e] w']; reflexivity.
Qed.

Lemma loadFromFile_import_fails env p e w :
  import_module env p = Throw e ->
  loadFromFile env p w =
  (Ok false, after w [Import p; ConsoleError (MsgFailedToLoad p e)]).
Proof.
  intros H. unfold loadFromFile, tryCatch, bind, importModule, consoleError.
  rewrite perform_after, H, emit_after, after_after. reflexivity.
Qed.

(** [loadFromFile] never throws. *)
Lemma loadFromFile_returns env p w :
  exists b w', loadFromFile env p w = (Ok b, w').
Proof.
  destruct (import_module env p) as [plugin | e] eqn:H.
  - rewrite (loadFromFile_imported _ _ _ _ H).
    destruct (initPlugin plugin _) as [[b | e] w']; eauto.
  - rewrite (loadFromFile_import_fails _ _ _ _ H). eauto.
Qed.




(** A disk whose first candidate has a failing init and whose second one is
    sound. *)
Definition brokenFirstDisk : Env :=
  disk true false true
    [("plugins", ["broken.js"; "foo.js"])]
    ["plugins/broken.js"; "plugins/foo.js"]
    []
    [("plugins/broken.js", brokenPlugin); ("plugins/foo.js", fooPlugin)].


Example brokenFirstDisk_loads_next :
  map fst (map_to_list (loadedPlugins (snd (loadPlugins brokenFirstDisk "plugins" emptyWorld))))
  = ["foo"].
Proof. vm_compute. reflexivity. Qed.

(** ** The disabling conditions *)

(** Calling [emptyFn] does nothing. *)
Lemma runTeardown_emptyFn w : runTeardown EmptyFn w = (TdUndefined, w).
Proof. reflexivity. Qed.

(** C9: with the feature flag off, [loadPlugins] resolves to [emptyFn]
    and leaves the trace as it was: no filesystem call is made, whatever
    the disk holds.  With the flag on and the directory absent, the only
    call is the existence test; with the directory empty, the existence
    test and the listing.  In all three cases nothing is imported,
    registered, mounted or updated, and calling the returned function does
    nothing. *)
Theorem disabled_returns_noop env root (w : World) :
  (enableServerPlugins env = false ->
   loadPlugins env root w = (Ok EmptyFn, setExitHooks [] w)) /\
  (enableServerPlugins env = true -> fs_exists env root = false ->
   loadPlugins env root w = (Ok EmptyFn, after (setExitHooks [] w) [FsExists root])) /\
  (enableServerPlugins env = true -> fs_exists env root = true ->
   fs_readdir env root = Ok [] ->
   loadPlugins env root w =
   (Ok EmptyFn, after (setExitHooks [] w) [FsExists root; FsReaddir root])) /\
  (forall w', runTeardown EmptyFn w' = (TdUndefined, w')).
Proof.
  repeat split.
  - intros Hoff. unfold loadPlugins, bind, modify. now rewrite Hoff.
  - intros Hon Habsent. unfold loadPlugins, bind, modify, existsSync, perform.
    rewrite Hon. cbn [negb]. rewrite Habsent. reflexivity.
  - intros Hon Hthere Hempty.
    unfold loadPlugins, bind, modify, existsSync, readdirSync, perform.
    rewrite Hon. cbn [negb]. rewrite Hthere. cbn [negb]. rewrite Hempty.
    unfold after, setTrace. cbn. now rewrite <- app_assoc.
Qed.

(** The demo disk with the feature switched off, without the directory,
    and with an empty directory. *)
Definition offDisk : Env :=
  disk false true true
    [("plugins", ["foo.js"])] ["plugins/foo.js"] [] [("plugins/foo.js", fooPlugin)].

Definition absentDisk : Env := disk true true true [] [] [] [].

Definition vacantDisk : Env := disk true true true [("plugins", [])] [] [] [].

Lemma disabled_returns_noop_witness :
  loadPlugins offDisk "plugins" emptyWorld = (Ok EmptyFn, emptyWorld) /\
  loadPlugins absentDisk "plugins" emptyWorld =
    (Ok EmptyFn, after emptyWorld [FsExists "plugins"]) /\
  loadPlugins vacantDisk "plugins" emptyWorld =
    (Ok EmptyFn, after emptyWorld [FsExists "plugins"; FsReaddir "plugins"]).
Proof.
  split; [| split].
  - exact (proj1 (disabled_returns_noop offDisk "plugins" emptyWorld) eq_refl).
  - exact (proj1 (proj2 (disabled_returns_noop absentDisk "plugins" emptyWorld))
             eq_refl eq_refl).
  - exact (proj1 (proj2 (proj2 (disabled_returns_noop vacantDisk "plugins" emptyWorld)))
             eq_refl eq_refl eq_refl).
Defined.

(** ** Teardown *)

Definition callOf (f : func) : event := Call (fn_name f).

(** The hook does not throw at the call: it returns a value or a promise. *)
Definition returnsFromCall (f : func) : Prop := forall e, fn_result f <> Throws e.


(** A hook that throws at the call ends the [map]: the hooks after it are
    not called, and the teardown function throws its error. *)
Lemma mapCalls_stops_at_throw pre h post e w :
  Forall returnsFromCall pre -> fn_result h = Throws e ->
  mapCalls (pre ++ h :: post) w = (Throw e, after w (map callOf (pre ++ [h]))).
Proof.
  intros H He. revert w. induction H as [| h0 rest Hh Hrest IH]; intros w; simpl.
  - unfold bind. rewrite emit_after, He. reflexivity.
  - unfold bind at 1. rewrite emit_after.
    destruct (fn_result h0) eqn:Hr; try (now destruct (Hh error));
      unfold bind; rewrite IH, after_after; reflexivity.
Qed.




(** What [loadPlugins] hands back is [emptyFn] or the closure over the
    hooks collected during the run. *)
Lemma loadPlugins_teardown env root w t w' :
  loadPlugins env root w = (Ok t, w') ->
  t = EmptyFn \/ t = AllExitHooks (exitHooks w').
Proof.
  unfold loadPlugins. intros H.
  repeat match type of H with
         | bind ?m ?k ?w0 = _ =>
             unfold bind at 1 in H;
             let r := fresh "r" in
             destruct (m w0) as [[r | r] ?] eqn:?; [| discriminate H]
         | (if ?b then _ else _) _ = _ => destruct b
         | ret _ _ = _ => unfold ret in H; injection H as <- <-
         end; try (now left).
  right.
  match goal with Hg : gets exitHooks _ = _ |- _ => unfold gets in Hg; injection Hg as <- <- end.
  reflexivity.
Qed.



(** Three exit hooks: one rejects late, one rejects early, one is sound. *)
Definition slowFailExit : func := Func "slow.exit" [] (Promise 2 (Rejected "slow failed")).
Definition fastFailExit : func := Func "fast.exit" [] (Promise 1 (Rejected "fast failed")).
Definition soundExit : func := Func "sound.exit" [] (Promise 1 Fulfilled).

Example two_rejections_one_reason :
  runTeardown (AllExitHooks [slowFailExit; fastFailExit; soundExit]) emptyWorld =
  (TdPromise (Rejected "fast failed"),
   after emptyWorld [Call "slow.exit"; Call "fast.exit"; Call "sound.exit"]).
Proof. reflexivity. Qed.




(** ** Resolving a directory *)



(** One probe of lines 107-112: whether the file exists and loaded, and the
    world afterwards. *)
Definition probeOne (env : Env) (filePath : string) (w : World) : bool * World :=
  let w1 := after w [FsExists filePath] in
  if fs_exists env filePath then
    match loadFromFile env filePath w1 with
    | (Ok b, w2) => (b, w2)
    | (Throw _, w2) => (false, w2)
    end
  else (false, w1).

Lemma probeEntries_cons env dir fileType rest w :
  probeEntries env dir (fileType :: rest) w =
  if fst (probeOne env (Path.join dir fileType) w)
  then (Ok tt, snd (probeOne env (Path.join dir fileType) w))
  else probeEntries env dir rest (snd (probeOne env (Path.join dir fileType) w)).
Proof.
  simpl. unfold bind at 1, existsSync, probeOne. rewrite perform_after.
  destruct (fs_exists env (Path.join dir fileType)).
  - unfold bind.
    destruct (loadFromFile_returns env (Path.join dir fileType)
                (after w [FsExists (Path.join dir fileType)])) as (b & w' & ->).
    simpl. now destruct b.
  - reflexivity.
Qed.



Lemma loadFromPackage_returns env p w :
  exists b w', loadFromPackage env p w = (Ok b, w').
Proof.
  unfold loadFromPackage, bind at 1, tryCatch.
  match goal with |- context [match ?m w with _ => _ end] => destruct (m w) as [[[b |] | e] w'] end;
    unfold consoleError, bind, ret; simpl; eauto.
Qed.

Lemma loadFromDirectory_listed env dir files w :
  fs_readdir env dir = Ok files -> files <> [] ->
  loadFromDirectory env dir w =
  (let pkg := Path.join dir "package.json" in
   let w1 := after w [FsReaddir dir; FsExists pkg] in
   if fs_exists env pkg then
     match loadFromPackage env pkg w1 with
     | (Ok true, w2) => (Ok tt, w2)
     | (_, w2) => probeEntries env dir ["index.js"; "index.cjs"; "index.mjs"] w2
     end
   else probeEntries env dir ["index.js"; "index.cjs"; "index.mjs"] w1).
Proof.
  intros Hdir Hfiles. unfold loadFromDirectory, bind at 1, readdirSync.
  rewrite perform_after, Hdir.
  replace (length files =? 0)%nat with false by (destruct files; [now destruct Hfiles | reflexivity]).
  cbv iota zeta. unfold bind at 1, existsSync. rewrite perform_after, after_after.
  change ([FsReaddir dir] ++ [FsExists (Path.join dir "package.json")])
    with [FsReaddir dir; FsExists (Path.join dir "package.json")].
  destruct (fs_exists env (Path.join dir "package.json")).
  - unfold bind at 1.
    destruct (loadFromPackage_returns env (Path.join dir "package.json")
                (after w [FsReaddir dir; FsExists (Path.join dir "package.json")]))
      as (b & w' & ->).
    now destruct b.
  - reflexivity.
Qed.



(** A directory whose manifest names [entry.js], a module without init,
    next to a sound [index.js]. *)
Definition noInitPlugin : module := [("info", descriptor "qux")].

Definition fallbackDisk : Env :=
  disk true false true
    [("plugins", ["qux"]);
     ("plugins/qux", ["package.json"; "entry.js"; "index.js"])]
    ["plugins/qux/package.json"; "plugins/qux/entry.js"; "plugins/qux/index.js"]
    [("plugins/qux/package.json", VObject [("main", VString "entry.js")])]
    [("plugins/qux/entry.js", noInitPlugin); ("plugins/qux/index.js", fooPlugin)].

Example fallbackDisk_loads_index :
  let w := snd (loadFromDirectory fallbackDisk "plugins/qux" emptyWorld) in
  trace w =
  [FsReaddir "plugins/qux"; FsExists "plugins/qux/package.json";
   FsReadFile "plugins/qux/package.json"; Import "plugins/qux/entry.js";
   ConsoleLog (MsgInitializing "plugins/qux/entry.js"); ConsoleError MsgNoInit;
   FsExists "plugins/qux/index.js"; Import "plugins/qux/index.js";
   ConsoleLog (MsgInitializing "plugins/qux/index.js"); Call "foo.init"] /\
  loadedPlugins w !! "foo" = Some fooPlugin.
Proof. vm_compute. split; reflexivity. Qed.




(** ** No candidate's failure escapes the loader *)




























(** ** What a run adds to the trace *)

(** The trace of [w] is the trace of [w0] followed by events that all
    satisfy [P]. *)
Definition extends (P : event -> Prop) (w0 w : World) : Prop :=
  exists evs, trace w = trace w0 ++ evs /\ Forall P evs.

Lemma extends_refl P w : extends P w w.
Proof. exists []. split; [now rewrite app_nil_r | constructor]. Qed.

Lemma extends_after P w0 w e : P e -> extends P w0 w -> extends P w0 (after w [e]).
Proof.
  intros He (evs & Htrace & Hall). exists (evs ++ [e]). split.
  - simpl. now rewrite Htrace, app_assoc.
  - apply Forall_app. split; [exact Hall | now constructor].
Qed.



(** ** Hidden entries *)




(** A checkout that is one commit behind its upstream and pulls cleanly. *)
Definition behindRepo : repo :=
  {| repo_isRepo := Ok true; repo_fetch := Ok tt; repo_head := "aaa";
     repo_tracking := Ok "origin/main"; repo_upstream := "bbb";
     repo_log := Ok ["bbb"]; repo_pull := Ok tt |}.

(** Two plugin directories, both checkouts that are behind; the name of
    one starts with a dot. *)
Definition hiddenDisk : Env :=
  disk true true true
    [("plugins", [".secret"; "open"]);
     ("plugins/.secret", ["index.js"]); ("plugins/open", ["index.js"])]
    ["plugins/.secret/index.js"; "plugins/open/index.js"]
    []
    [("plugins/.secret/index.js", fooPlugin); ("plugins/open/index.js", barPlugin)].

Definition checkoutsWorld : World :=
  setRepos (<["plugins/.secret" := behindRepo]> (<["plugins/open" := behindRepo]> ∅))
    emptyWorld.

Example hiddenDisk_run :
  let w := snd (loadPlugins hiddenDisk "plugins" checkoutsWorld) in
  repo_head (repoAt w "plugins/open") = "bbb" /\
  repo_head (repoAt w "plugins/.secret") = "aaa" /\
  loadedPlugins w !! "foo" = Some fooPlugin /\
  loadedPlugins w !! "bar" = Some barPlugin.
Proof. vm_compute. repeat split. Qed.


(** ** The update phase *)

Lemma repoAt_after w evs dir : repoAt (after w evs) dir = repoAt w dir.
Proof. reflexivity. Qed.

(** The world after one turn of the update loop, read off the checkout
    [r] of the directory as the turn finds it. *)
Definition updated (root directory : string) (w : World) : World :=
  let p := Path.join root directory in
  let r := repoAt w p in
  let failed e := ConsoleError (MsgUpdateFailed directory e) in
  match repo_isRepo r with
  | Throw e => after w [Git p CheckIsRepo; failed e]
  | Ok false => after w [Git p CheckIsRepo]
  | Ok true =>
      match repo_fetch r with
      | Throw e => after w [Git p CheckIsRepo; Git p Fetch; failed e]
      | Ok _ =>
          match repo_tracking r with
          | Throw e =>
              after w [Git p CheckIsRepo; Git p Fetch; Git p RevParseHead;
                       Git p RevParseUpstream; failed e]
          | Ok tracking =>
              let probes := [Git p CheckIsRepo; Git p Fetch; Git p RevParseHead;
                             Git p RevParseUpstream; Git p (Log (repo_head r) tracking)] in
              match repo_log r with
              | Throw e => after w (probes ++ [failed e])
              | Ok [] => after w probes
              | Ok (_ :: _) =>
                  let w1 := setPluginsToUpdate (S (pluginsToUpdate w)) w in
                  match repo_pull r with
                  | Throw e => after w1 (probes ++ [Git p Pull; failed e])
                  | Ok _ =>
                      after (setRepos (<[p := fastForward r]> (repos w)) w1)
                        (probes ++ [Git p Pull; Git p RevParseHead;
                                    ConsoleLog (MsgUpdated directory (repo_upstream r))])
                  end
              end
          end
      end
  end.

Lemma gitRead_run {A} dir op (f : repo -> result A) w :
  gitRead dir op f w = (f (repoAt w dir), after w [Git dir op]).
Proof. reflexivity. Qed.

Lemma gitPull_run dir w :
  gitPull dir w =
  match repo_pull (repoAt w dir) with
  | Ok _ => (Ok tt, setRepos (<[dir := fastForward (repoAt w dir)]> (repos w))
                      (after w [Git dir Pull]))
  | Throw e => (Throw e, after w [Git dir Pull])
  end.
Proof. reflexivity. Qed.

Lemma repoAt_counter w n dir : repoAt (setPluginsToUpdate n w) dir = repoAt w dir.
Proof. reflexivity. Qed.

Lemma repoAt_inserted (m : gmap string repo) r w dir : repoAt (setRepos (<[dir := r]> m) w) dir = r.
Proof.
  unfold repoAt. change (repos (setRepos (<[dir := r]> m) w)) with (<[dir := r]> m).
  now rewrite lookup_insert_eq.
Qed.

Lemma repoAt_inserted_ne r w dir p :
  p <> dir -> repoAt (setRepos (<[dir := r]> (repos w)) w) p = repoAt w p.
Proof.
  intros Hne. unfold repoAt.
  change (repos (setRepos (<[dir := r]> (repos w)) w)) with (<[dir := r]> (repos w)).
  rewrite lookup_insert_ne by congruence. reflexivity.
Qed.

Lemma repos_after w evs : repos (after w evs) = repos w.
Proof. reflexivity. Qed.

Lemma repos_counter w n : repos (setPluginsToUpdate n w) = repos w.
Proof. reflexivity. Qed.

Lemma pluginsToUpdate_after w evs : pluginsToUpdate (after w evs) = pluginsToUpdate w.
Proof. reflexivity. Qed.

Lemma setRepos_after (m : gmap string repo) w evs : setRepos m (after w evs) = after (setRepos m w) evs.
Proof. reflexivity. Qed.

Lemma setPluginsToUpdate_after n w evs :
  setPluginsToUpdate n (after w evs) = after (setPluginsToUpdate n w) evs.
Proof. reflexivity. Qed.

Lemma updateOne_run root directory w :
  updateOne root directory w = (Ok tt, updated root directory w).
Proof.
  unfold updateOne, updated, tryCatch. cbv zeta. set (p := Path.join root directory).
  unfold checkIsRepo, gitFetch, revparseHead, revparseUpstream, gitLog, consoleError.
  unfold bind at 1. rewrite gitRead_run.
  destruct (repo_isRepo (repoAt w p)) as [[|] | e] eqn:HisRepo; cbn [negb].
  - unfold bind at 1. rewrite gitRead_run, repoAt_after.
    destruct (repo_fetch (repoAt w p)) as [[] | e] eqn:Hfetch.
    + unfold bind at 1. rewrite gitRead_run, !repoAt_after.
      unfold bind at 1. rewrite gitRead_run, !repoAt_after.
      destruct (repo_tracking (repoAt w p)) as [tracking | e] eqn:Htracking.
      * unfold bind at 1. rewrite gitRead_run, !repoAt_after.
        destruct (repo_log (repoAt w p)) as [[| c cs] | e] eqn:Hlog.
        -- cbn [length Nat.eqb]. unfold ret. now rewrite !after_after.
        -- cbn [length Nat.eqb]. unfold bind at 1, modify.
           unfold bind at 1. rewrite gitPull_run, repoAt_counter, !repoAt_after.
           destruct (repo_pull (repoAt w p)) as [[] | e] eqn:Hpull.
           ++ unfold bind at 1. rewrite gitRead_run.
              unfold consoleLog. rewrite emit_after.
              rewrite repos_counter, !repos_after, !pluginsToUpdate_after.
              rewrite repoAt_inserted.
              rewrite !setPluginsToUpdate_after, !setRepos_after, !after_after.
              reflexivity.
           ++ rewrite emit_after, !pluginsToUpdate_after.
              rewrite !setPluginsToUpdate_after, !after_after. reflexivity.
        -- rewrite emit_after, !after_after. reflexivity.
      * rewrite emit_after, !after_after. reflexivity.
    + rewrite emit_after, !after_after. reflexivity.
  - unfold ret. reflexivity.
  - rewrite emit_after, after_after. reflexivity.
Qed.

(** The turns of the update loop, one after the other. *)
Definition updatedAll (root : string) (directories : list string) (w : World) : World :=
  fold_left (fun w directory => updated root directory w) directories w.

Lemma updateEach_run root directories w :
  updateEach root directories w = (Ok tt, updatedAll root directories w).
Proof.
  revert w. induction directories as [| d rest IH]; intros w; simpl; [reflexivity |].
  unfold bind. rewrite updateOne_run. apply IH.
Qed.









(** [statSync] says the entry is a directory. *)
Definition isDirectoryIn (env : Env) (root file : string) : bool :=
  match fs_isDirectory env (Path.join root file) with
  | Ok b => b
  | Throw _ => false
  end.

Definition statOf (root file : string) : event := FsStat (Path.join root file).

Lemma filterDirectories_run env root names w :
  Forall (fun f => exists b, fs_isDirectory env (Path.join root f) = Ok b) names ->
  filterDirectories env root names w =
  (Ok (List.filter (isDirectoryIn env root) names), after w (map (statOf root) names)).
Proof.
  intros H. revert w. induction H as [| f rest [b Hb] Hrest IH]; intros w; simpl.
  - unfold ret. now rewrite after_nil.
  - assert (Hf : isDirectoryIn env root f = b) by (unfold isDirectoryIn; now rewrite Hb).
    rewrite Hf. unfold bind at 1, statIsDirectory. rewrite perform_after, Hb.
    unfold bind. rewrite IH, after_after. reflexivity.
Qed.

(** The update phase when it has directories to visit: the listing, the
    [statSync] calls, the announcement and the git probe, then one turn
    per directory. *)
Lemma updatePlugins_run env root files w :
  enableServerPluginsAutoUpdate env = true -> git_installed env = true ->
  fs_readdir env root = Ok files ->
  Forall (fun f => exists b, fs_isDirectory env (Path.join root f) = Ok b)
    (List.filter notHidden files) ->
  let names := List.filter notHidden files in
  let directories := List.filter (isDirectoryIn env root) names in
  let w2 := setPluginsToUpdate 0
              (after w (FsReaddir root :: map (statOf root) names ++
                        [ConsoleLog MsgAutoUpdating; CommandExists "git"])) in
  let w3 := updatedAll root directories w2 in
  directories <> [] ->
  updatePlugins env root w =
  (Ok tt, if (pluginsToUpdate w3 =? 0)%nat then after w3 [ConsoleLog MsgUpToDate] else w3).
Proof.
  intros Hauto Hgit Hdir Hstat names directories w2 w3 Hsome.
  unfold updatePlugins. rewrite Hauto. cbn [negb].
  unfold bind at 1, readdirSync. rewrite perform_after, Hdir.
  unfold bind at 1. rewrite (filterDirectories_run _ _ _ _ Hstat).
  fold names. fold directories.
  replace (length directories =? 0)%nat with false
    by (destruct directories; [now destruct Hsome | reflexivity]).
  unfold bind at 1, consoleLog. rewrite emit_after.
  unfold bind at 1, commandExistsSync. rewrite perform_after, Hgit. cbn [negb].
  unfold bind at 1, modify. unfold bind at 1. rewrite updateEach_run.
  rewrite !after_after.
  change ([FsReaddir root] ++ map (statOf root) names ++
          [ConsoleLog MsgAutoUpdating] ++ [CommandExists "git"])
    with (FsReaddir root :: map (statOf root) names ++
          [ConsoleLog MsgAutoUpdating; CommandExists "git"]).
  fold w2. fold w3. unfold bind, gets.
  destruct (pluginsToUpdate w3 =? 0)%nat; reflexivity.
Qed.




(** A checkout that is behind and whose pull ends in a merge conflict. *)
Definition conflictRepo : repo :=
  {| repo_isRepo := Ok true; repo_fetch := Ok tt; repo_head := "aaa";
     repo_tracking := Ok "origin/main"; repo_upstream := "bbb";
     repo_log := Ok ["bbb"];
     repo_pull := Throw "CONFLICT (content): Merge conflict in index.js" |}.

Definition conflictWorld : World :=
  setRepos (<["plugins/open" := conflictRepo]> ∅) emptyWorld.

Example conflictWorld_update :
  let w := snd (updatePlugins hiddenDisk "plugins" conflictWorld) in
  repo_head (repoAt w "plugins/open") = "aaa" /\
  trace w =
  [FsReaddir "plugins"; FsStat "plugins/open"; ConsoleLog MsgAutoUpdating;
   CommandExists "git"; Git "plugins/open" CheckIsRepo; Git "plugins/open" Fetch;
   Git "plugins/open" RevParseHead; Git "plugins/open" RevParseUpstream;
   Git "plugins/open" (Log "aaa" "origin/main"); Git "plugins/open" Pull;
   ConsoleError (MsgUpdateFailed "open" "CONFLICT (content): Merge conflict in index.js")].
Proof. vm_compute. split; reflexivity. Qed.








(** * Further properties of the loader *)

(** ** The outcomes of one load *)

(** Only the trace differs: events were added, nothing else changed. *)
Definition untouched (w w' : World) : Prop :=
  exists evs, w' = after w evs.

(** One module was registered, after some events: a module that passes
    validation, under its own id, which was free, with an init that
    completed. *)
Definition loadedOne (w w' : World) : Prop :=
  exists plugin id init evs,
    accepts plugin id init /\ loadedPlugins w !! id = None /\ completes init /\
    w' = registered plugin id init (after w evs).

Lemma untouched_refl w : untouched w w.
Proof. exists []. now rewrite after_nil. Qed.

Lemma untouched_after w evs : untouched w (after w evs).
Proof. now exists evs. Qed.

Lemma untouched_trans w1 w2 w3 : untouched w1 w2 -> untouched w2 w3 -> untouched w1 w3.
Proof. intros [e1 ->] [e2 ->]. exists (e1 ++ e2). apply after_after. Qed.

Lemma untouched_loadedOne w1 w2 w3 : untouched w1 w2 -> loadedOne w2 w3 -> loadedOne w1 w3.
Proof.
  intros [e1 ->] (plugin & id & init & e2 & Hacc & Hfresh & Hdone & ->).
  exists plugin, id, init, (e1 ++ e2). repeat split; try assumption.
  now rewrite after_after.
Qed.

Lemma firstMissing_none props :
  firstMissing props ["id"; "name"; "description"] = None ->
  exists id name description,
    lookupProp props "id" = VString id /\ lookupProp props "name" = VString name /\
    lookupProp props "description" = VString description.
Proof.
  simpl.
  destruct (lookupProp props "id") eqn:Hid; try discriminate.
  destruct (lookupProp props "name") eqn:Hname; try discriminate.
  destruct (lookupProp props "description") eqn:Hdesc; try discriminate.
  intros _. eauto 6.
Qed.

(** What validation answers: the module is let through untouched, or one
    message is logged, or (for a [null] info export) a TypeError is
    thrown. *)
Lemma validatePlugin_cases plugin w :
  (exists id init,
     accepts plugin id init /\ validatePlugin plugin w = (Ok (Some (id, init)), w)) \/
  (exists m, validatePlugin plugin w = (Ok None, after w [ConsoleError m])) \/
  (exported plugin "info" = VNull /\
   validatePlugin plugin w =
   (Throw "TypeError: Cannot read properties of null (reading 'id')", w)).
Proof.
  destruct (String.eqb (typeof (exported plugin "info")) "object") eqn:Hty.
  - apply typeof_object in Hty. destruct Hty as [Hnull | [props Hprops]].
    + right. right. split; [exact Hnull | now apply validatePlugin_null_info].
    + destruct (firstMissing props ["id"; "name"; "description"]) as [field |] eqn:Hmiss.
      * right. left. eexists. now apply (validatePlugin_missing_field _ props field).
      * destruct (exported plugin "init") as [| | | | | | init] eqn:Hinit;
          try (right; left; eexists;
               apply (validatePlugin_no_init _ props); [assumption | assumption |];
               intros f; rewrite Hinit; discriminate).
        destruct (isValidPluginID (stringOf (lookupProp props "id"))) eqn:Hvalid.
        -- left. destruct (firstMissing_none _ Hmiss) as (id & name & desc & Hid & Hname & Hdesc).
           rewrite Hid in Hvalid. simpl in Hvalid.
           assert (Hacc : accepts plugin id init).
           { exists props, name, desc. repeat split; assumption. }
           exists id, init. split; [exact Hacc | now apply validatePlugin_accepts].
        -- right. left. eexists.
           now apply (validatePlugin_invalid_id _ props init).
  - right. left. eexists. now apply validatePlugin_no_info.
Qed.

(** A module is accepted under one id and one init only. *)
Lemma accepts_unique plugin id init id' init' :
  accepts plugin id init -> accepts plugin id' init' -> id = id' /\ init = init'.
Proof.
  intros H H'.
  pose proof (validatePlugin_accepts _ _ _ emptyWorld H) as E.
  rewrite (validatePlugin_accepts _ _ _ emptyWorld H') in E.
  injection E as <- <-. now split.
Qed.

Lemma completes_or_fails init : completes init \/ exists e, failsWith init e.
Proof.
  unfold completes, failsWith.
  destruct (fn_result init) as [e | | t [| e]]; eauto 6.
Qed.

Lemma completes_not_fails init e : completes init -> failsWith init e -> False.
Proof.
  unfold completes, failsWith.
  intros [Hc | [t Hc]] [Hf | [t' Hf]]; rewrite Hc in Hf; discriminate.
Qed.

(** What [initPlugin] does: it registers the module and returns [true]; or
    it returns [false] having at most logged; or it throws having at most
    called init. *)
Lemma initPlugin_cases plugin w :
  (exists id init,
     accepts plugin id init /\ loadedPlugins w !! id = None /\ completes init /\
     initPlugin plugin w = (Ok true, registered plugin id init w)) \/
  (exists evs, initPlugin plugin w = (Ok false, after w evs)) \/
  (exists e evs, initPlugin plugin w = (Throw e, after w evs)).
Proof.
  destruct (validatePlugin_cases plugin w) as [(id & init & Hacc & Hv) | [[m Hv] | [_ Hv]]].
  - rewrite (initPlugin_accepted _ _ _ _ Hacc).
    destruct (loadedPlugins w !! id) as [first |] eqn:Hid.
    + right. left. eexists. now apply registerPlugin_duplicate with (first := first).
    + destruct (completes_or_fails init) as [Hdone | [e Hfail]].
      * left. exists id, init. repeat split; try assumption. now apply registerPlugin_ok.
      * right. right. exists e. eexists. now apply registerPlugin_init_fails.
  - right. left. eexists. unfold initPlugin. rewrite (bind_ok _ _ _ _ _ Hv). reflexivity.
  - right. right. eexists. exists []. unfold initPlugin.
    rewrite (bind_throw _ _ _ _ _ Hv). now rewrite after_nil.
Qed.

(** What [loadFromFile] does: it registers the module of the file and
    returns [true], or it returns [false] having only added events. *)
Lemma loadFromFile_cases env p w :
  (exists plugin id init,
     import_module env p = Ok plugin /\ accepts plugin id init /\
     loadedPlugins w !! id = None /\ completes init /\
     loadFromFile env p w =
     (Ok true, registered plugin id init
                 (after w [Import p; ConsoleLog (MsgInitializing p)]))) \/
  (exists evs, loadFromFile env p w = (Ok false, after w evs)).
Proof.
  destruct (import_module env p) as [plugin | e] eqn:Himp.
  - rewrite (loadFromFile_imported _ _ _ _ Himp).
    destruct (initPlugin_cases plugin (after w [Import p; ConsoleLog (MsgInitializing p)]))
      as [(id & init & Hacc & Hfresh & Hdone & ->) | [[evs ->] | (e & evs & ->)]].
    + left. exists plugin, id, init. repeat split; assumption.
    + right. eexists. now rewrite after_after.
    + right. eexists. now rewrite !after_after.
  - right. eexists. apply (loadFromFile_import_fails _ _ _ _ Himp).
Qed.

Lemma loadFromFile_step env p w :
  (fst (loadFromFile env p w) = Ok true /\ loadedOne w (snd (loadFromFile env p w))) \/
  (fst (loadFromFile env p w) = Ok false /\ untouched w (snd (loadFromFile env p w))).
Proof.
  destruct (loadFromFile_cases env p w)
    as [(plugin & id & init & _ & Hacc & Hfresh & Hdone & ->) | [evs ->]].
  - left. split; [reflexivity |]. now exists plugin, id, init, [Import p; ConsoleLog (MsgInitializing p)].
  - right. split; [reflexivity | apply untouched_after].
Qed.

(** [loadFromPackage] as a function of what the manifest holds. *)
Lemma loadFromPackage_run env p w :
  loadFromPackage env p w =
  (let w1 := after w [FsReadFile p] in
   let failed e := (Ok false, after w1 [ConsoleError (MsgFailedToLoad p e)]) in
   match fs_readJSON env p with
   | Throw e => failed e
   | Ok json =>
       match getProp json "main" with
       | inl e => failed e
       | inr main =>
           if truthy main then
             match main with
             | VString s => loadFromFile env (Path.join (Path.dirname p) s) w1
             | _ => failed "TypeError [ERR_INVALID_ARG_TYPE]: The 'path' argument must be of type string"
             end
           else (Ok false, w1)
       end
   end).
Proof.
  cbv zeta. unfold loadFromPackage, bind at 1, tryCatch, bind at 1, readJSON.
  rewrite perform_after.
  destruct (fs_readJSON env p) as [json | e]; [| reflexivity].
  unfold bind at 1, readProp.
  destruct (getProp json "main") as [e | main]; [reflexivity |].
  unfold ret at 1. destruct (truthy main); [| reflexivity].
  destruct main as [| | b | n | s | props | f]; try reflexivity.
  unfold joinValue, bind at 1, ret at 1. unfold bind at 1.
  destruct (loadFromFile_returns env (Path.join (Path.dirname p) s) (after w [FsReadFile p]))
    as (b & w' & ->).
  reflexivity.
Qed.

Lemma loadFromPackage_step env p w :
  (fst (loadFromPackage env p w) = Ok true /\ loadedOne w (snd (loadFromPackage env p w))) \/
  (fst (loadFromPackage env p w) = Ok false /\ untouched w (snd (loadFromPackage env p w))).
Proof.
  assert (Hfailed : forall e r,
            r = (Ok false, after (after w [FsReadFile p]) [ConsoleError (MsgFailedToLoad p e)]) ->
            fst r = Ok false /\ untouched w (snd r)).
  { intros e r ->. split; [reflexivity |]. simpl. rewrite after_after. apply untouched_after. }
  rewrite loadFromPackage_run. cbv zeta.
  destruct (fs_readJSON env p) as [json | e]; [| right; now apply (Hfailed e)].
  destruct (getProp json "main") as [e | main]; [right; now apply (Hfailed e) |].
  destruct (truthy main); [| right; split; [reflexivity | apply untouched_after]].
  destruct main as [| | b | n | s | props | f];
    try (right; eapply Hfailed; reflexivity).
  destruct (loadFromFile_step env (Path.join (Path.dirname p) s) (after w [FsReadFile p]))
    as [[Hr Hw] | [Hr Hw]].
  - left. split; [exact Hr |].
    apply (untouched_loadedOne _ _ _ (untouched_after w [FsReadFile p]) Hw).
  - right. split; [exact Hr |].
    apply (untouched_trans _ _ _ (untouched_after w [FsReadFile p]) Hw).
Qed.

Lemma probeOne_step env p w :
  (fst (probeOne env p w) = true /\ loadedOne w (snd (probeOne env p w))) \/
  (fst (probeOne env p w) = false /\ untouched w (snd (probeOne env p w))).
Proof.
  unfold probeOne. cbv zeta. destruct (fs_exists env p).
  - destruct (loadFromFile_step env p (after w [FsExists p])) as [[Hr Hw] | [Hr Hw]];
      destruct (loadFromFile env p (after w [FsExists p])) as [[b | e] w'];
      simpl in Hr; try discriminate Hr; injection Hr as ->; simpl in Hw; simpl.
    + left. split; [reflexivity |].
      apply (untouched_loadedOne _ _ _ (untouched_after w [FsExists p]) Hw).
    + right. split; [reflexivity |].
      apply (untouched_trans _ _ _ (untouched_after w [FsExists p]) Hw).
  - right. split; [reflexivity | apply untouched_after].
Qed.

Lemma probeEntries_step env dir fileTypes w :
  loadedOne w (snd (probeEntries env dir fileTypes w)) \/
  untouched w (snd (probeEntries env dir fileTypes w)).
Proof.
  revert w. induction fileTypes as [| fileType rest IH]; intros w.
  - right. apply untouched_refl.
  - rewrite probeEntries_cons.
    destruct (probeOne_step env (Path.join dir fileType) w) as [[Hr Hw] | [Hr Hw]];
      rewrite Hr.
    + left. exact Hw.
    + destruct (IH (snd (probeOne env (Path.join dir fileType) w))) as [H | H].
      * left. now apply (untouched_loadedOne _ _ _ Hw).
      * right. now apply (untouched_trans _ _ _ Hw).
Qed.

Lemma loadFromDirectory_step env dir w :
  loadedOne w (snd (loadFromDirectory env dir w)) \/
  untouched w (snd (loadFromDirectory env dir w)).
Proof.
  destruct (fs_readdir env dir) as [files | e] eqn:Hdir.
  - destruct files as [| f fs].
    + right. unfold loadFromDirectory, bind, readdirSync. rewrite perform_after, Hdir.
      apply untouched_after.
    + rewrite (loadFromDirectory_listed _ _ _ _ Hdir) by discriminate. cbv zeta.
      set (w1 := after w [FsReaddir dir; FsExists (Path.join dir "package.json")]).
      assert (H1 : untouched w w1) by apply untouched_after.
      assert (Hprobe : forall w2, untouched w1 w2 \/ False ->
                loadedOne w (snd (probeEntries env dir ["index.js"; "index.cjs"; "index.mjs"] w2)) \/
                untouched w (snd (probeEntries env dir ["index.js"; "index.cjs"; "index.mjs"] w2))).
      { intros w2 [H2 | []].
        destruct (probeEntries_step env dir ["index.js"; "index.cjs"; "index.mjs"] w2) as [H | H].
        - left. apply (untouched_loadedOne _ _ _ (untouched_trans _ _ _ H1 H2) H).
        - right. apply (untouched_trans _ _ _ (untouched_trans _ _ _ H1 H2) H). }
      destruct (fs_exists env (Path.join dir "package.json")).
      * destruct (loadFromPackage_step env (Path.join dir "package.json") w1) as [[Hr Hw] | [Hr Hw]];
          destruct (loadFromPackage env (Path.join dir "package.json") w1) as [[b | e] w2];
          simpl in Hr; try discriminate Hr; injection Hr as ->; simpl in Hw.
        -- left. simpl. apply (untouched_loadedOne _ _ _ H1 Hw).
        -- apply Hprobe. now left.
      * apply Hprobe. left. apply untouched_refl.
  - right. unfold loadFromDirectory, bind, readdirSync. rewrite perform_after, Hdir.
    apply untouched_after.
Qed.

(** One turn of the loading loop as a function of what [statSync] says. *)
Lemma loadEntry_run env root file w :
  loadEntry env root file w =
  (let p := Path.join root file in
   let w1 := after w [FsStat p] in
   match fs_isDirectory env p with
   | Throw e => (Throw e, w1)
   | Ok true => loadFromDirectory env p w1
   | Ok false =>
       if negb (isCommonJS file) && negb (isESModule file) then (Ok tt, w1)
       else (Ok tt, snd (loadFromFile env p w1))
   end).
Proof.
  cbv zeta. unfold loadEntry, bind at 1, statIsDirectory. rewrite perform_after.
  destruct (fs_isDirectory env (Path.join root file)) as [[|] | e]; try reflexivity.
  destruct (negb (isCommonJS file) && negb (isESModule file)); [reflexivity |].
  unfold bind.
  destruct (loadFromFile_returns env (Path.join root file)
              (after w [FsStat (Path.join root file)])) as (b & w' & ->).
  reflexivity.
Qed.

Lemma loadEntry_step env root file w :
  loadedOne w (snd (loadEntry env root file w)) \/
  untouched w (snd (loadEntry env root file w)).
Proof.
  rewrite loadEntry_run. cbv zeta. set (p := Path.join root file).
  pose proof (untouched_after w [FsStat p]) as H1.
  destruct (fs_isDirectory env p) as [[|] | e].
  - destruct (loadFromDirectory_step env p (after w [FsStat p])) as [H | H].
    + left. apply (untouched_loadedOne _ _ _ H1 H).
    + right. apply (untouched_trans _ _ _ H1 H).
  - destruct (negb (isCommonJS file) && negb (isESModule file)); [now right |].
    destruct (loadFromFile_step env p (after w [FsStat p])) as [[_ Hw] | [_ Hw]].
    + left. apply (untouched_loadedOne _ _ _ H1 Hw).
    + right. apply (untouched_trans _ _ _ H1 Hw).
  - now right.
Qed.

Lemma untouched_fields w w' :
  untouched w w' ->
  loadedPlugins w' = loadedPlugins w /\ appRoutes w' = appRoutes w /\
  exitHooks w' = exitHooks w /\ repos w' = repos w.
Proof. intros [evs ->]. repeat split. Qed.

(** The exit hook that registering [plugin] collects, if any. *)
Definition exitHookOf (plugin : module) : list func :=
  match exported plugin "exit" with
  | VFunction exit => [exit]
  | _ => []
  end.

(** The mount that registering a module with this init adds, if any. *)
Definition mountOf (id : string) (init : func) : list (string * list string) :=
  match fn_routes init with
  | [] => []
  | _ :: _ => [(mountPoint id, fn_routes init)]
  end.

Lemma registered_fields plugin id init w :
  loadedPlugins (registered plugin id init w) = <[id := plugin]> (loadedPlugins w) /\
  appRoutes (registered plugin id init w) = appRoutes w ++ mountOf id init /\
  exitHooks (registered plugin id init w) = exitHooks w ++ exitHookOf plugin /\
  repos (registered plugin id init w) = repos w.
Proof.
  unfold registered, mountOf, exitHookOf.
  destruct (fn_routes init); destruct (exported plugin "exit"); simpl;
    rewrite ?app_nil_r; repeat split.
Qed.

Lemma loadedOne_fields w w' :
  loadedOne w w' ->
  exists plugin id init,
    accepts plugin id init /\ loadedPlugins w !! id = None /\ completes init /\
    loadedPlugins w' = <[id := plugin]> (loadedPlugins w) /\
    appRoutes w' = appRoutes w ++ mountOf id init /\
    exitHooks w' = exitHooks w ++ exitHookOf plugin /\
    repos w' = repos w.
Proof.
  intros (plugin & id & init & evs & Hacc & Hfresh & Hdone & ->).
  exists plugin, id, init.
  destruct (registered_fields plugin id init (after w evs)) as (H1 & H2 & H3 & H4).
  repeat split; assumption.
Qed.

(** X1: the three outcomes of [initPlugin].  It returns [true] exactly
    when the module passes validation, its id is free and its init
    completes; it throws exactly when the info export is [null] (a
    TypeError) or when the module passes validation, its id is free and
    its init fails (the error of init); in every case but the first the
    registry, the mounted routes and the exit hooks are left as they
    were. *)
Theorem initPlugin_outcome plugin (w : World) :
  (fst (initPlugin plugin w) = Ok true <->
   exists id init,
     accepts plugin id init /\ loadedPlugins w !! id = None /\ completes init) /\
  (forall e,
     fst (initPlugin plugin w) = Throw e <->
     (exported plugin "info" = VNull /\
      e = "TypeError: Cannot read properties of null (reading 'id')") \/
     exists id init,
       accepts plugin id init /\ loadedPlugins w !! id = None /\ failsWith init e) /\
  (fst (initPlugin plugin w) <> Ok true ->
   loadedPlugins (snd (initPlugin plugin w)) = loadedPlugins w /\
   appRoutes (snd (initPlugin plugin w)) = appRoutes w /\
   exitHooks (snd (initPlugin plugin w)) = exitHooks w).
Proof.
  assert (Hnull : forall id init, accepts plugin id init -> exported plugin "info" = VNull -> False).
  { intros id init (props & _ & _ & Hinfo & _) Habs. congruence. }
  split; [| split].
  - split.
    + intros Htrue.
      destruct (initPlugin_cases plugin w)
        as [(id & init & Hacc & Hfresh & Hdone & _) | [[evs E] | (e & evs & E)]];
        [eauto | rewrite E in Htrue; discriminate Htrue ..].
    + intros (id & init & Hacc & Hfresh & Hdone).
      now rewrite (initPlugin_accepted _ _ _ _ Hacc), (registerPlugin_ok _ _ _ _ Hfresh Hdone).
  - intros e.
    destruct (validatePlugin_cases plugin w) as [(id & init & Hacc & Hv) | [[m Hv] | [Hinfo Hv]]].
    + rewrite (initPlugin_accepted _ _ _ _ Hacc).
      destruct (loadedPlugins w !! id) as [first |] eqn:Hid.
      * rewrite (registerPlugin_duplicate _ _ _ _ _ Hid). split; [discriminate |].
        intros [[Habs _] | (id' & init' & Hacc' & Hfresh' & _)]; [now destruct (Hnull _ _ Hacc) |].
        destruct (accepts_unique _ _ _ _ _ Hacc Hacc') as [<- _]. congruence.
      * destruct (completes_or_fails init) as [Hdone | [e0 Hfail]].
        -- rewrite (registerPlugin_ok _ _ _ _ Hid Hdone). split; [discriminate |].
           intros [[Habs _] | (id' & init' & Hacc' & _ & Hfail')];
             [now destruct (Hnull _ _ Hacc) |].
           destruct (accepts_unique _ _ _ _ _ Hacc Hacc') as [_ <-].
           now destruct (completes_not_fails _ _ Hdone Hfail').
        -- rewrite (registerPlugin_init_fails _ _ _ _ _ Hid Hfail). simpl. split.
           ++ intros E. injection E as <-. right. now exists id, init.
           ++ intros [[Habs _] | (id' & init' & Hacc' & _ & Hfail')];
                [now destruct (Hnull _ _ Hacc) |].
              destruct (accepts_unique _ _ _ _ _ Hacc Hacc') as [_ <-].
              destruct Hfail as [Hf | [t Hf]], Hfail' as [Hf' | [t' Hf']]; congruence.
    + assert (E : initPlugin plugin w = (Ok false, after w [ConsoleError m])).
      { unfold initPlugin. now rewrite (bind_ok _ _ _ _ _ Hv). }
      rewrite E. split; [discriminate |].
      intros [[Habs _] | (id & init & Hacc & _)].
      * rewrite (validatePlugin_null_info _ _ Habs) in Hv. discriminate Hv.
      * rewrite (validatePlugin_accepts _ _ _ _ Hacc) in Hv. discriminate Hv.
    + assert (E : initPlugin plugin w =
                  (Throw "TypeError: Cannot read properties of null (reading 'id')", w)).
      { unfold initPlugin. now rewrite (bind_throw _ _ _ _ _ Hv). }
      rewrite E. simpl. split.
      * intros H. injection H as <-. now left.
      * intros [[_ ->] | (id & init & Hacc & _)]; [reflexivity | now destruct (Hnull _ _ Hacc)].
  - intros Hnot.
    destruct (initPlugin_cases plugin w)
      as [(id & init & _ & _ & _ & E) | [[evs E] | (e & evs & E)]]; rewrite E in *.
    + now destruct Hnot.
    + repeat split.
    + repeat split.
Qed.


(** X3: one entry of the extensions directory registers at most one
    module, however many entry points its directory offers (a manifest
    and up to three index files): after a turn of the loading loop either
    the registry, the mounted routes and the exit hooks are what they
    were, or exactly one module that passes validation was added under
    its own, previously free id, with its mount (if init pushed routes)
    and its exit hook (if it exports one).  Hence a run over [files]
    never shrinks the registry and adds at most one record per entry. *)
Theorem candidate_registers_at_most_one env root file files (w : World) :
  (let w' := snd (loadEntry env root file w) in
   (loadedPlugins w' = loadedPlugins w /\ appRoutes w' = appRoutes w /\
    exitHooks w' = exitHooks w) \/
   (exists plugin id init,
      accepts plugin id init /\ loadedPlugins w !! id = None /\ completes init /\
      loadedPlugins w' = <[id := plugin]> (loadedPlugins w) /\
      appRoutes w' = appRoutes w ++ mountOf id init /\
      exitHooks w' = exitHooks w ++ exitHookOf plugin)) /\
  (let w' := snd (loadEach env root files w) in
   size (loadedPlugins w) <= size (loadedPlugins w') /\
   size (loadedPlugins w') <= size (loadedPlugins w) + length files).
Proof.
  assert (Hstep : forall f w0,
            let w1 := snd (loadEntry env root f w0) in
            size (loadedPlugins w0) <= size (loadedPlugins w1) <= S (size (loadedPlugins w0))).
  { intros f w0 w1. subst w1.
    destruct (loadEntry_step env root f w0) as [H | H].
    - destruct (loadedOne_fields _ _ H) as (plugin & id & init & _ & Hfresh & _ & Hreg & _).
      rewrite Hreg, (map_size_insert_None _ _ _ Hfresh). lia.
    - destruct (untouched_fields _ _ H) as (Hreg & _). rewrite Hreg. lia. }
  split.
  - cbv zeta. destruct (loadEntry_step env root file w) as [H | H].
    + right. destruct (loadedOne_fields _ _ H)
        as (plugin & id & init & Hacc & Hfresh & Hdone & Hreg & Hroutes & Hhooks & _).
      exists plugin, id, init. repeat split; assumption.
    + left. destruct (untouched_fields _ _ H) as (Hreg & Hroutes & Hhooks & _).
      repeat split; assumption.
  - cbv zeta. revert w. induction files as [| f rest IH]; intros w; simpl; [lia |].
    pose proof (Hstep f w) as H1. cbv zeta in H1.
    unfold bind. destruct (loadEntry env root f w) as [[[] | e] w1]; simpl in *.
    + specialize (IH w1). lia.
    + lia.
Qed.




(** ** The shape of the update phase *)

(** Events of the loader's own bookkeeping: listings, [statSync] calls,
    the probe for the git command, console output. *)
Definition housekeeping (e : event) : bool :=
  match e with
  | FsReaddir _ | FsStat _ | CommandExists _ | ConsoleLog _ | ConsoleError _ => true
  | _ => false
  end.

Lemma filterDirectories_shape env root names w :
  exists evs,
    snd (filterDirectories env root names w) = after w evs /\
    Forall (fun e => exists p, e = FsStat p) evs.
Proof.
  revert w. induction names as [| f rest IH]; intros w; simpl.
  - exists []. split; [now rewrite after_nil | constructor].
  - unfold bind at 1, statIsDirectory. rewrite perform_after.
    destruct (fs_isDirectory env (Path.join root f)) as [b | e].
    + unfold bind. destruct (IH (after w [FsStat (Path.join root f)])) as (evs & Hsnd & Hall).
      destruct (filterDirectories env root rest _) as [[dirs | e] w1]; simpl in *; subst w1;
        exists (FsStat (Path.join root f) :: evs);
        (split; [now rewrite after_after | constructor; eauto]).
    + exists [FsStat (Path.join root f)]. split; [reflexivity | repeat constructor; eauto].
Qed.

(** The update phase either stops before its loop, having only added
    bookkeeping events, or runs one turn per directory it kept. *)
Lemma updatePlugins_shape env root w :
  (exists evs,
     snd (updatePlugins env root w) = after w evs /\
     Forall (fun e => housekeeping e = true) evs /\
     ~ In (ConsoleLog MsgUpToDate) evs /\
     (In (ConsoleLog MsgAutoUpdating) evs -> git_installed env = false)) \/
  (enableServerPluginsAutoUpdate env = true /\ git_installed env = true /\
   exists files directories pre,
     fs_readdir env root = Ok files /\
     (forall d, In d directories -> In d files /\ notHidden d = true) /\
     Forall (fun e => housekeeping e = true) pre /\
     ~ In (ConsoleLog MsgUpToDate) pre /\
     In (ConsoleLog MsgAutoUpdating) pre /\
     let w3 := updatedAll root directories (setPluginsToUpdate 0 (after w pre)) in
     snd (updatePlugins env root w) =
     if (pluginsToUpdate w3 =? 0)%nat then after w3 [ConsoleLog MsgUpToDate] else w3).
Proof.
  remember (snd (updatePlugins env root w)) as W eqn:HW.
  unfold updatePlugins in HW.
  destruct (enableServerPluginsAutoUpdate env) eqn:Hauto; cbn [negb] in HW.
  2: { left. exists []. subst W. simpl. rewrite after_nil.
       repeat split; [constructor | intros [] | intros []]. }
  unfold bind at 1, readdirSync in HW. rewrite perform_after in HW.
  destruct (fs_readdir env root) as [files | e] eqn:Hdir.
  2: { left. exists [FsReaddir root]. subst W. simpl.
       repeat split; [repeat constructor | |]; intros [Habs | []]; discriminate Habs. }
  unfold bind at 1 in HW.
  destruct (filterDirectories_shape env root (List.filter notHidden files)
              (after w [FsReaddir root])) as (stats & Hsnd & Hstats).
  assert (Hhouse : Forall (fun e => housekeeping e = true) (FsReaddir root :: stats)).
  { constructor; [reflexivity |]. rewrite List.Forall_forall in *.
    intros e He. destruct (Hstats e He) as [p ->]. reflexivity. }
  assert (Hquiet : forall m, ~ In (ConsoleLog m) (FsReaddir root :: stats)).
  { intros m [Habs | Hin]; [discriminate Habs |].
    rewrite List.Forall_forall in Hstats. destruct (Hstats _ Hin) as [p Hp]. discriminate Hp. }
  destruct (filterDirectories env root (List.filter notHidden files) (after w [FsReaddir root]))
    as [[directories | e] w1] eqn:Hfilter; simpl in Hsnd; subst w1;
    rewrite after_after in HW; simpl app in HW.
  2: { left. exists (FsReaddir root :: stats). subst W.
       repeat split; [assumption | apply Hquiet |]. intros H. now apply Hquiet in H. }
  assert (Hdirs : forall d, In d directories -> In d files /\ notHidden d = true).
  { intros d Hd. apply (filterDirectories_subset _ _ _ _ _ _ Hfilter) in Hd.
    now apply filter_In in Hd. }
  destruct directories as [| d0 ds]; cbn [length Nat.eqb] in HW.
  { left. exists (FsReaddir root :: stats). subst W.
    repeat split; [assumption | apply Hquiet |]. intros H. now apply Hquiet in H. }
  unfold bind at 1, consoleLog in HW. rewrite emit_after, after_after in HW.
  unfold bind at 1, commandExistsSync in HW. rewrite perform_after, after_after in HW.
  assert (Hhouse2 : Forall (fun e => housekeeping e = true)
                      (((FsReaddir root :: stats) ++ [ConsoleLog MsgAutoUpdating]) ++
                       [CommandExists "git"])).
  { repeat (apply Forall_app; split); try assumption; repeat constructor. }
  assert (Hquiet2 : ~ In (ConsoleLog MsgUpToDate)
                      (((FsReaddir root :: stats) ++ [ConsoleLog MsgAutoUpdating]) ++
                       [CommandExists "git"])).
  { rewrite !in_app_iff. intros [[H | [H | []]] | [H | []]];
      [now apply Hquiet in H | discriminate H | discriminate H]. }
  destruct (git_installed env) eqn:Hgit; cbn [negb] in HW.
  - right. split; [reflexivity |]. split; [reflexivity |].
    exists files, (d0 :: ds), (((FsReaddir root :: stats) ++ [ConsoleLog MsgAutoUpdating]) ++
                              [CommandExists "git"]).
    split; [reflexivity |]. split; [exact Hdirs |]. split; [exact Hhouse2 |].
    split; [exact Hquiet2 |].
    split; [rewrite !in_app_iff; left; right; left; reflexivity |].
    cbv zeta. subst W.
    unfold bind at 1, modify. unfold bind at 1. rewrite updateEach_run.
    unfold bind, gets, consoleLog.
    destruct (pluginsToUpdate _ =? 0)%nat; reflexivity.
  - left. eexists. subst W. unfold consoleError. rewrite emit_after, after_after.
    split; [reflexivity |]. split; [| split].
    + apply Forall_app. split; [assumption | repeat constructor].
    + rewrite in_app_iff. intros [H | [H | []]]; [now apply Hquiet2 | discriminate H].
    + reflexivity.
Qed.

(** The world is its own checkouts and counter put back. *)
Lemma tuned_self w : setRepos (repos w) (setPluginsToUpdate (pluginsToUpdate w) w) = w.
Proof. now destruct w. Qed.

(** One turn of the update loop changes the checkouts, the counter and the
    trace only, and the events it adds are git commands and console
    output. *)
Lemma updated_form root directory w :
  exists m n evs,
    updated root directory w = after (setRepos m (setPluginsToUpdate n w)) evs /\
    Forall (fun e => isGit e = true \/ housekeeping e = true) evs.
Proof.
  unfold updated. cbv zeta. set (q := Path.join root directory).
  assert (Hself : forall evs,
            Forall (fun e => isGit e = true \/ housekeeping e = true) evs ->
            exists m n evs',
              after w evs = after (setRepos m (setPluginsToUpdate n w)) evs' /\
              Forall (fun e => isGit e = true \/ housekeeping e = true) evs').
  { intros evs Hevs. exists (repos w), (pluginsToUpdate w), evs.
    now rewrite tuned_self. }
  destruct (repo_isRepo (repoAt w q)) as [[|] | e1];
    [destruct (repo_fetch (repoAt w q)) as [[] | e2];
     [destruct (repo_tracking (repoAt w q)) as [tracking | e3];
      [destruct (repo_log (repoAt w q)) as [[| c cs] | e4];
       [| destruct (repo_pull (repoAt w q)) as [[] | e5] |] |] |] | |];
    try (apply Hself; cbn [app];
         repeat first [apply List.Forall_nil | apply List.Forall_cons];
         first [left; reflexivity | right; reflexivity]).
  - eexists _, _, _. split; [reflexivity |]. cbn [app].
    repeat first [apply List.Forall_nil | apply List.Forall_cons];
      first [left; reflexivity | right; reflexivity].
  - exists (repos w). eexists _, _. split.
    + rewrite <- (tuned_self w) at 1. reflexivity.
    + cbn [app]. repeat first [apply List.Forall_nil | apply List.Forall_cons];
        first [left; reflexivity | right; reflexivity].
Qed.

Lemma tuned_tuned m n m' n' w evs :
  setRepos m' (setPluginsToUpdate n' (after (setRepos m (setPluginsToUpdate n w)) evs)) =
  after (setRepos m' (setPluginsToUpdate n' w)) evs.
Proof. reflexivity. Qed.

Lemma updatedAll_form root directories w :
  exists m n evs,
    updatedAll root directories w = after (setRepos m (setPluginsToUpdate n w)) evs /\
    Forall (fun e => isGit e = true \/ housekeeping e = true) evs.
Proof.
  revert w. induction directories as [| d rest IH]; intros w; simpl.
  - exists (repos w), (pluginsToUpdate w), []. rewrite tuned_self, after_nil.
    split; [reflexivity | constructor].
  - destruct (updated_form root d w) as (m & n & evs & -> & Hevs).
    destruct (IH (after (setRepos m (setPluginsToUpdate n w)) evs))
      as (m' & n' & evs' & -> & Hevs').
    exists m', n', (evs ++ evs'). rewrite tuned_tuned, after_after.
    split; [reflexivity | apply Forall_app; now split].
Qed.

(** The update phase as a whole: new checkouts, a new counter, and events
    that are git commands or bookkeeping. *)
Lemma updatePlugins_form env root w :
  exists m n evs,
    snd (updatePlugins env root w) = after (setRepos m (setPluginsToUpdate n w)) evs /\
    Forall (fun e => isGit e = true \/ housekeeping e = true) evs.
Proof.
  assert (Hweak : forall evs, Forall (fun e => housekeeping e = true) evs ->
                    Forall (fun e => isGit e = true \/ housekeeping e = true) evs).
  { intros evs H. eapply List.Forall_impl; [| exact H]. intros e He. now right. }
  destruct (updatePlugins_shape env root w)
    as [(evs & -> & Hevs & _) |
        (_ & _ & files & directories & pre & _ & _ & Hpre & _ & _ & Hrun)].
  - exists (repos w), (pluginsToUpdate w), evs. rewrite tuned_self.
    split; [reflexivity | now apply Hweak].
  - cbv zeta in Hrun. rewrite Hrun. clear Hrun.
    destruct (updatedAll_form root directories (setPluginsToUpdate 0 (after w pre)))
      as (m & n & evs & -> & Hevs).
    assert (Hafter : after (setRepos m (setPluginsToUpdate n (setPluginsToUpdate 0 (after w pre)))) evs =
                     after (setRepos m (setPluginsToUpdate n w)) (pre ++ evs)).
    { unfold after. simpl. now rewrite app_assoc. }
    rewrite Hafter.
    destruct (pluginsToUpdate _ =? 0)%nat.
    + exists m, n, ((pre ++ evs) ++ [ConsoleLog MsgUpToDate]). rewrite after_after.
      split; [reflexivity |].
      repeat (apply Forall_app; split); auto; repeat constructor; now right.
    + exists m, n, (pre ++ evs). split; [reflexivity |].
      apply Forall_app; split; auto.
Qed.

(** The counter of one turn: it goes up by one exactly when the turn
    attempts a pull, and the closing message is never logged by a turn. *)
Lemma updated_tally root directory w :
  exists evs,
    trace (updated root directory w) = trace w ++ evs /\
    ~ In (ConsoleLog MsgUpToDate) evs /\
    ((pluginsToUpdate (updated root directory w) = pluginsToUpdate w /\
      forall dir, ~ In (Git dir Pull) evs) \/
     (pluginsToUpdate (updated root directory w) = S (pluginsToUpdate w) /\
      In (Git (Path.join root directory) Pull) evs)).
Proof.
  unfold updated. cbv zeta. set (q := Path.join root directory).
  destruct (repo_isRepo (repoAt w q)) as [[|] | e1];
    [destruct (repo_fetch (repoAt w q)) as [[] | e2];
     [destruct (repo_tracking (repoAt w q)) as [tracking | e3];
      [destruct (repo_log (repoAt w q)) as [[| c cs] | e4];
       [| destruct (repo_pull (repoAt w q)) as [[] | e5] |] |] |] | |].
  all: eexists; (split; [reflexivity |]).
  all: (split; [cbn [app In]; intros Hin;
                repeat (destruct Hin as [Hin | Hin]; [discriminate Hin |]);
                exact Hin |]).
  all: first
    [ right; split; [reflexivity | cbn [app In]; tauto]
    | left; split; [reflexivity |];
      intros dir; cbn [app In]; intros Hin;
      repeat (destruct Hin as [Hin | Hin]; [discriminate Hin |]); exact Hin ].
Qed.

Lemma updatedAll_tally root directories w :
  exists evs,
    trace (updatedAll root directories w) = trace w ++ evs /\
    ~ In (ConsoleLog MsgUpToDate) evs /\
    ((pluginsToUpdate (updatedAll root directories w) = pluginsToUpdate w /\
      forall dir, ~ In (Git dir Pull) evs) \/
     (pluginsToUpdate w < pluginsToUpdate (updatedAll root directories w) /\
      exists d, In d directories /\ In (Git (Path.join root d) Pull) evs)).
Proof.
  revert w. induction directories as [| d rest IH]; intros w; simpl.
  - exists []. rewrite app_nil_r. split; [reflexivity |]. split; [intros [] |].
    left. split; [reflexivity | intros dir []].
  - destruct (updated_tally root d w) as (evs & Htrace & Hquiet & Hcount).
    destruct (IH (updated root d w)) as (evs' & Htrace' & Hquiet' & Hcount').
    exists (evs ++ evs'). split; [now rewrite Htrace', Htrace, app_assoc |].
    split; [rewrite in_app_iff; tauto |].
    destruct Hcount as [[Hsame Hnone] | [Hup Hpull]];
      destruct Hcount' as [[Hsame' Hnone'] | [Hup' (d' & Hd' & Hpull')]].
    + left. split; [congruence |]. intros dir. rewrite in_app_iff.
      intros [H | H]; [now apply (Hnone dir) | now apply (Hnone' dir)].
    + right. split; [lia |]. exists d'. rewrite in_app_iff. tauto.
    + right. split; [lia |]. exists d. rewrite in_app_iff. tauto.
    + right. split; [lia |]. exists d'. rewrite in_app_iff. tauto.
Qed.

(** The checkout is a repository that could be fetched, has an upstream,
    and is behind it. *)
Definition behind (r : repo) : Prop :=
  repo_isRepo r = Ok true /\ repo_fetch r = Ok tt /\
  (exists tracking, repo_tracking r = Ok tracking) /\
  exists c cs, repo_log r = Ok (c :: cs).

(** One turn pulls only its own checkout and only when it is behind; the
    checkouts it leaves are those it found, but for its own after a pull
    that succeeded. *)
Lemma updated_pull root directory w :
  let q := Path.join root directory in
  exists evs,
    trace (updated root directory w) = trace w ++ evs /\
    (forall p, In (Git p Pull) evs -> p = q /\ behind (repoAt w q)) /\
    (forall p, repoAt (updated root directory w) p = repoAt w p \/
               p = q /\ behind (repoAt w q)).
Proof.
  intros q. unfold updated. cbv zeta. fold q.
  destruct (repo_isRepo (repoAt w q)) as [[|] | e1] eqn:HisRepo;
    [destruct (repo_fetch (repoAt w q)) as [[] | e2] eqn:Hfetch;
     [destruct (repo_tracking (repoAt w q)) as [tracking | e3] eqn:Htracking;
      [destruct (repo_log (repoAt w q)) as [[| c cs] | e4] eqn:Hlog;
       [| destruct (repo_pull (repoAt w q)) as [[] | e5] eqn:Hpull |] |] |] | |].
  all: eexists; (split; [reflexivity |]).
  all: try assert (Hbehind : behind (repoAt w q))
         by (unfold behind; repeat split; eauto).
  all: (split; [intros p; cbn [app In]; intros Hin;
                repeat (destruct Hin as [Hin | Hin];
                        [first [discriminate Hin
                               | injection Hin as Hq; split; [symmetry; exact Hq | exact Hbehind]] |]);
                destruct Hin |]).
  all: intros p.
  all: lazymatch goal with
    | |- context [setRepos] =>
        destruct (string_dec p q) as [Heq | Hne];
        [ right; split; assumption
        | left; rewrite repoAt_after;
          apply (repoAt_inserted_ne _ (setPluginsToUpdate (S (pluginsToUpdate w)) w));
          exact Hne ]
    | |- _ => left; reflexivity
    end.
Qed.

Lemma updatedAll_pull root directories w :
  exists evs,
    trace (updatedAll root directories w) = trace w ++ evs /\
    forall p, In (Git p Pull) evs ->
              behind (repoAt w p) /\
              exists d, In d directories /\ p = Path.join root d.
Proof.
  revert w. induction directories as [| d rest IH]; intros w; simpl.
  - exists []. rewrite app_nil_r. split; [reflexivity | intros p []].
  - destruct (updated_pull root d w) as (evs & Htrace & Hpull & Hrepo). cbv zeta in *.
    destruct (IH (updated root d w)) as (evs' & Htrace' & Hpull').
    exists (evs ++ evs'). split; [now rewrite Htrace', Htrace, app_assoc |].
    intros p Hin. apply in_app_iff in Hin. destruct Hin as [Hin | Hin].
    + destruct (Hpull p Hin) as [-> Hb]. split; [exact Hb |]. exists d. now split; [left |].
    + destruct (Hpull' p Hin) as (Hb & d' & Hd' & ->). split.
      * destruct (Hrepo (Path.join root d')) as [Hsame | [-> Hb']];
          [now rewrite <- Hsame | exact Hb'].
      * exists d'. now split; [right |].
Qed.

(** X5: the update phase is confined to the checkouts.  Whatever the
    directory holds and whatever git answers, [updatePlugins] leaves the
    registry, the mounted routes and the exit hooks as they were, and the
    events it adds are git commands, directory listings, [statSync]
    calls, the probe for the git command and console output: it never
    imports a module, never calls a function of a plugin, and never reads
    a manifest. *)
Theorem update_phase_touches_checkouts_only env root (w : World) :
  let w' := snd (updatePlugins env root w) in
  loadedPlugins w' = loadedPlugins w /\ appRoutes w' = appRoutes w /\
  exitHooks w' = exitHooks w /\
  exists evs,
    trace w' = trace w ++ evs /\
    Forall (fun e => match e with
                     | Import _ | Call _ | FsReadFile _ | FsExists _ => False
                     | _ => True
                     end) evs.
Proof.
  cbv zeta. destruct (updatePlugins_form env root w) as (m & n & evs & -> & Hevs).
  repeat split. exists evs. split; [reflexivity |].
  eapply List.Forall_impl; [| exact Hevs].
  intros [] [H | H]; try discriminate H; exact I.
Qed.

(** X6: without the git command the update phase runs no git command at
    all: the checkouts and the counter are what they were, nothing is
    reported as up to date, and the events added are bookkeeping only. *)
Theorem update_without_git_runs_no_command env root (w : World) :
  git_installed env = false ->
  let w' := snd (updatePlugins env root w) in
  repos w' = repos w /\ pluginsToUpdate w' = pluginsToUpdate w /\
  exists evs,
    trace w' = trace w ++ evs /\
    Forall (fun e => isGit e = false) evs /\
    ~ In (ConsoleLog MsgUpToDate) evs.
Proof.
  intros Hgit. cbv zeta.
  destruct (updatePlugins_shape env root w)
    as [(evs & -> & Hevs & Hquiet & _) | (_ & Hgit' & _)]; [| congruence].
  repeat split. exists evs. split; [reflexivity |]. split; [| exact Hquiet].
  eapply List.Forall_impl; [| exact Hevs].
  intros [] H; try discriminate H; reflexivity.
Qed.

(** The disk of [hiddenDisk] on a machine without git. *)
Definition gitlessDisk : Env :=
  disk true true false
    [("plugins", [".secret"; "open"]);
     ("plugins/.secret", ["index.js"]); ("plugins/open", ["index.js"])]
    ["plugins/.secret/index.js"; "plugins/open/index.js"]
    []
    [("plugins/.secret/index.js", fooPlugin); ("plugins/open/index.js", barPlugin)].

Lemma update_without_git_runs_no_command_witness :
  git_installed gitlessDisk = false /\
  let w' := snd (updatePlugins gitlessDisk "plugins" checkoutsWorld) in
  repos w' = repos checkoutsWorld /\ pluginsToUpdate w' = pluginsToUpdate checkoutsWorld /\
  exists evs,
    trace w' = trace checkoutsWorld ++ evs /\
    Forall (fun e => isGit e = false) evs /\
    ~ In (ConsoleLog MsgUpToDate) evs.
Proof.
  split; [reflexivity |].
  apply (update_without_git_runs_no_command gitlessDisk "plugins" checkoutsWorld).
  reflexivity.
Defined.

(** X7: the closing message of the update phase.  [All plugins are up to
    date] is logged exactly when the phase got as far as its banner, git
    is installed, and no pull was attempted in the loop.  A pull that
    fails still counts as attempted, so the message is withheld then;
    and checkouts whose fetch failed do not count, so the message is
    logged although nothing could be checked. *)
Theorem up_to_date_logged_iff_no_pull env root (w : World) :
  exists evs,
    trace (snd (updatePlugins env root w)) = trace w ++ evs /\
    (In (ConsoleLog MsgUpToDate) evs <->
     In (ConsoleLog MsgAutoUpdating) evs /\ git_installed env = true /\
     forall dir, ~ In (Git dir Pull) evs).
Proof.
  destruct (updatePlugins_shape env root w)
    as [(evs & -> & Hevs & Hquiet & Hbanner) |
        (_ & Hgit & files & directories & pre & _ & _ & Hpre & Hquiet & Hbanner & Hrun)].
  - exists evs. split; [reflexivity |]. split.
    + intros H. now destruct (Hquiet H).
    + intros (H & Hgit & _). rewrite (Hbanner H) in Hgit. discriminate Hgit.
  - cbv zeta in Hrun. rewrite Hrun. clear Hrun.
    set (w2 := setPluginsToUpdate 0 (after w pre)).
    destruct (updatedAll_tally root directories w2) as (evs & Htrace & Hquiet' & Hcount).
    assert (Hnogit : forall dir, ~ In (Git dir Pull) pre).
    { intros dir Hin. rewrite List.Forall_forall in Hpre. specialize (Hpre _ Hin).
      discriminate Hpre. }
    destruct Hcount as [[Hsame Hnone] | [Hup (d & _ & Hpull)]].
    + rewrite Hsame. change (pluginsToUpdate w2) with 0. cbn [Nat.eqb].
      exists (pre ++ evs ++ [ConsoleLog MsgUpToDate]). split.
      * change (trace (after (updatedAll root directories w2) [ConsoleLog MsgUpToDate]))
          with (trace (updatedAll root directories w2) ++ [ConsoleLog MsgUpToDate]).
        rewrite Htrace. change (trace w2) with (trace w ++ pre).
        now rewrite <- !app_assoc.
      * split.
        -- intros _. split; [apply in_app_iff; now left |]. split; [exact Hgit |].
           intros dir Hin. rewrite !in_app_iff in Hin.
           destruct Hin as [Hin | [Hin | [Hin | []]]];
             [now apply (Hnogit dir) | now apply (Hnone dir) | discriminate Hin].
        -- intros _. rewrite !in_app_iff. right. right. now left.
    + change (pluginsToUpdate w2) with 0 in Hup.
      destruct (pluginsToUpdate (updatedAll root directories w2)) as [| k] eqn:Hk; [lia |].
      cbn [Nat.eqb]. exists (pre ++ evs). split.
      * rewrite Htrace. change (trace w2) with (trace w ++ pre). now rewrite app_assoc.
      * split.
        -- intros Hin. apply in_app_iff in Hin. tauto.
        -- intros (_ & _ & Hnone). exfalso.
           apply (Hnone (Path.join root d)). apply in_app_iff. now right.
Qed.

(** X8: what a pull needs.  When the update phase attempts a pull in a
    directory, auto-update is on, git is installed, the directory is a
    name of the listing that does not start with a dot, and its checkout,
    as the phase found it, is a repository whose fetch succeeded, whose
    upstream branch resolved, and whose commit range to the upstream is
    not empty.  A directory that is not a repository, cannot be fetched,
    or tracks no upstream is never pulled. *)
Theorem pull_only_when_behind env root p (w : World) :
  exists evs,
    trace (snd (updatePlugins env root w)) = trace w ++ evs /\
    (In (Git p Pull) evs ->
     enableServerPluginsAutoUpdate env = true /\ git_installed env = true /\
     behind (repoAt w p) /\
     exists files d,
       fs_readdir env root = Ok files /\ In d files /\ notHidden d = true /\
       p = Path.join root d).
Proof.
  destruct (updatePlugins_shape env root w)
    as [(evs & -> & Hevs & _) |
        (Hauto & Hgit & files & directories & pre & Hdir & Hdirs & Hpre & _ & _ & Hrun)].
  - exists evs. split; [reflexivity |]. intros Hin.
    rewrite List.Forall_forall in Hevs. specialize (Hevs _ Hin). discriminate Hevs.
  - cbv zeta in Hrun. rewrite Hrun. clear Hrun.
    set (w2 := setPluginsToUpdate 0 (after w pre)).
    destruct (updatedAll_pull root directories w2) as (evs & Htrace & Hpull).
    assert (Hloop : In (Git p Pull) (pre ++ evs) ->
              enableServerPluginsAutoUpdate env = true /\ git_installed env = true /\
              behind (repoAt w p) /\
              exists files d,
                fs_readdir env root = Ok files /\ In d files /\ notHidden d = true /\
                p = Path.join root d).
    { intros Hin. apply in_app_iff in Hin. destruct Hin as [Hin | Hin].
      - rewrite List.Forall_forall in Hpre. specialize (Hpre _ Hin). discriminate Hpre.
      - destruct (Hpull p Hin) as (Hb & d & Hd & ->).
        destruct (Hdirs d Hd) as [Hfile Hshown].
        split; [exact Hauto |]. split; [exact Hgit |]. split; [exact Hb |].
        exists files, d. now repeat split. }
    destruct (pluginsToUpdate (updatedAll root directories w2) =? 0)%nat.
    + exists ((pre ++ evs) ++ [ConsoleLog MsgUpToDate]). split.
      * change (trace (after (updatedAll root directories w2) [ConsoleLog MsgUpToDate]))
          with (trace (updatedAll root directories w2) ++ [ConsoleLog MsgUpToDate]).
        rewrite Htrace. change (trace w2) with (trace w ++ pre).
        now rewrite <- !app_assoc.
      * intros Hin. apply in_app_iff in Hin. destruct Hin as [Hin | [Hin | []]];
          [now apply Hloop | discriminate Hin].
    + exists (pre ++ evs). split.
      * rewrite Htrace. change (trace w2) with (trace w ++ pre). now rewrite app_assoc.
      * exact Hloop.
Qed.

(** ** A run as a list of registrations *)

(** A registration that went through: the id, the module, its init. *)
Definition registration : Type := (string * module * func)%type.

Definition regId (r : registration) : string := fst (fst r).
Definition regModule (r : registration) : module := snd (fst r).
Definition regInit (r : registration) : func := snd r.

Definition record (m : gmap string module) (r : registration) : gmap string module :=
  <[regId r := regModule r]> m.

(** The registry after the registrations [regs], in their order. *)
Definition recorded (regs : list registration) (m : gmap string module) : gmap string module :=
  fold_left record regs m.

Definition mountsOf (regs : list registration) : list (string * list string) :=
  flat_map (fun r => mountOf (regId r) (regInit r)) regs.

Definition hooksOf (regs : list registration) : list func :=
  flat_map (fun r => exitHookOf (regModule r)) regs.

(** [w'] is [w0] after the registrations [regs], as far as the registry,
    the mounted routes and the exit hooks go: the ids are distinct and
    were free in [w0], every module passes validation and its init
    completed. *)
Definition journal (w0 w' : World) (regs : list registration) : Prop :=
  List.NoDup (map regId regs) /\
  Forall (fun r => accepts (regModule r) (regId r) (regInit r) /\ completes (regInit r) /\
                   loadedPlugins w0 !! regId r = None) regs /\
  loadedPlugins w' = recorded regs (loadedPlugins w0) /\
  appRoutes w' = appRoutes w0 ++ mountsOf regs /\
  exitHooks w' = exitHooks w0 ++ hooksOf regs.

Lemma recorded_snoc regs r m : recorded (regs ++ [r]) m = record (recorded regs m) r.
Proof. unfold recorded. now rewrite fold_left_app. Qed.

Lemma recorded_cons r regs m : recorded (r :: regs) m = recorded regs (record m r).
Proof. reflexivity. Qed.

Lemma recorded_None regs m id :
  recorded regs m !! id = None -> m !! id = None /\ ~ In id (map regId regs).
Proof.
  revert m. induction regs as [| r rs IH]; intros m H.
  - split; [exact H | intros []].
  - rewrite recorded_cons in H. destruct (IH _ H) as [H1 H2]. unfold record in H1.
    destruct (string_dec (regId r) id) as [Heq | Hne].
    + rewrite Heq, lookup_insert_eq in H1. discriminate H1.
    + rewrite lookup_insert_ne in H1 by exact Hne. split; [exact H1 |].
      cbn [map In]. intros [Hin | Hin]; [now apply Hne | now apply H2].
Qed.

Lemma recorded_fresh regs m id :
  m !! id = None -> ~ In id (map regId regs) -> recorded regs m !! id = None.
Proof.
  revert m. induction regs as [| r rs IH]; intros m Hm Hin; [exact Hm |].
  rewrite recorded_cons. apply IH.
  - unfold record. rewrite lookup_insert_ne; [exact Hm |].
    intros Heq. apply Hin. now left.
  - intros H. apply Hin. now right.
Qed.

Lemma recorded_Some regs m id plugin :
  recorded regs m !! id = Some plugin ->
  m !! id = Some plugin \/ exists init, In (id, plugin, init) regs.
Proof.
  revert m. induction regs as [| r rs IH]; intros m H; [now left |].
  rewrite recorded_cons in H. destruct (IH _ H) as [H1 | [init Hin]].
  - unfold record in H1. destruct (string_dec (regId r) id) as [Heq | Hne].
    + rewrite Heq, lookup_insert_eq in H1. injection H1 as <-. right.
      exists (regInit r). left. destruct r as [[rid rp] ri]. simpl in *. now subst.
    + rewrite lookup_insert_ne in H1 by exact Hne. now left.
  - right. exists init. now right.
Qed.

Lemma recorded_kept regs m id plugin :
  m !! id = Some plugin -> Forall (fun r => m !! regId r = None) regs ->
  recorded regs m !! id = Some plugin.
Proof.
  intros Hm. induction regs as [| r rs IH] using rev_ind; intros Hall; [exact Hm |].
  apply Forall_app in Hall. destruct Hall as [Hrs Hr].
  rewrite recorded_snoc. unfold record. rewrite lookup_insert_ne; [now apply IH |].
  intros Heq. apply List.Forall_cons_iff in Hr. destruct Hr as [Hr _].
  rewrite Heq, Hm in Hr. discriminate Hr.
Qed.

Lemma NoDup_snoc {A} (l : list A) (x : A) : List.NoDup (l ++ [x]) <-> List.NoDup l /\ ~ In x l.
Proof.
  split.
  - intros H. split.
    + now apply List.NoDup_app_remove_r in H.
    + apply List.NoDup_remove_2 with (l' := []) in H. now rewrite app_nil_r in H.
  - intros [H1 H2]. induction l as [| a l IH]; simpl.
    + constructor; [intros [] | constructor].
    + apply List.NoDup_cons_iff in H1. destruct H1 as [Ha Hl]. constructor.
      * rewrite in_app_iff. intros [Hin | [Hin | []]]; [now apply Ha |].
        apply H2. now left.
      * apply IH; [exact Hl |]. intros Hin. apply H2. now right.
Qed.

Lemma recorded_In regs m r :
  List.NoDup (map regId regs) -> In r regs -> recorded regs m !! regId r = Some (regModule r).
Proof.
  induction regs as [| r0 rs IH] using rev_ind; intros Hnd Hin; [destruct Hin |].
  rewrite map_app in Hnd. cbn [map] in Hnd. apply NoDup_snoc in Hnd.
  destruct Hnd as [Hnd Hfresh].
  rewrite recorded_snoc. unfold record.
  apply in_app_iff in Hin. destruct Hin as [Hin | [<- | []]].
  - rewrite lookup_insert_ne; [now apply IH |].
    intros Heq. apply Hfresh. rewrite Heq. now apply in_map.
  - apply lookup_insert_eq.
Qed.

Lemma recorded_size regs m :
  List.NoDup (map regId regs) -> Forall (fun r => m !! regId r = None) regs ->
  size (recorded regs m) = size m + length regs.
Proof.
  induction regs as [| r rs IH] using rev_ind; intros Hnd Hall; [simpl; lia |].
  rewrite map_app in Hnd. cbn [map] in Hnd. apply NoDup_snoc in Hnd.
  destruct Hnd as [Hnd Hfresh].
  apply Forall_app in Hall. destruct Hall as [Hrs Hr].
  apply List.Forall_cons_iff in Hr. destruct Hr as [Hr _].
  rewrite recorded_snoc. unfold record.
  rewrite map_size_insert_None by (now apply recorded_fresh).
  rewrite IH by assumption. rewrite length_app. simpl. lia.
Qed.

Lemma journal_nil w : journal w w [].
Proof.
  unfold journal, mountsOf, hooksOf. simpl. rewrite !app_nil_r.
  repeat split; constructor.
Qed.

Lemma journal_untouched w0 w w' regs : journal w0 w regs -> untouched w w' -> journal w0 w' regs.
Proof.
  intros (Hnd & Hall & Hreg & Hroutes & Hhooks) Hw.
  destruct (untouched_fields _ _ Hw) as (H1 & H2 & H3 & _).
  unfold journal. rewrite H1, H2, H3. now repeat split.
Qed.

Lemma journal_tuned w0 w regs (m : gmap string repo) n :
  journal w0 w regs -> journal w0 (setRepos m (setPluginsToUpdate n w)) regs.
Proof. intros H. exact H. Qed.

Lemma journal_loadedOne w0 w w' regs :
  journal w0 w regs -> loadedOne w w' -> exists r, journal w0 w' (regs ++ [r]).
Proof.
  intros (Hnd & Hall & Hreg & Hroutes & Hhooks) Hw.
  destruct (loadedOne_fields _ _ Hw)
    as (plugin & id & init & Hacc & Hfresh & Hdone & H1 & H2 & H3 & _).
  rewrite Hreg in Hfresh. apply recorded_None in Hfresh. destruct Hfresh as [Hfree Hnew].
  exists (id, plugin, init). unfold journal. repeat split.
  - rewrite map_app. cbn [map]. apply NoDup_snoc. now split.
  - apply Forall_app. split; [exact Hall |]. constructor; [| constructor].
    now repeat split.
  - rewrite H1, Hreg, recorded_snoc. reflexivity.
  - rewrite H2, Hroutes. unfold mountsOf. rewrite flat_map_app. cbn [flat_map].
    now rewrite app_nil_r, app_assoc.
  - rewrite H3, Hhooks. unfold hooksOf. rewrite flat_map_app. cbn [flat_map].
    now rewrite app_nil_r, app_assoc.
Qed.

Lemma keeps_bind {A B} (J : World -> Prop) (m : M A) (k : A -> M B) :
  preserves J m -> (forall a, preserves J (k a)) -> preserves J (bind m k).
Proof.
  intros Hm Hk w Hw. specialize (Hm w Hw). unfold bind.
  destruct (m w) as [[a | e] w']; simpl in *; [now apply Hk | exact Hm].
Qed.

(** Invariants of a run: a property kept by new events, by a change of
    the checkouts and the counter, and by one registration is kept by the
    load phase, the update phase and the whole of [loadPlugins] from the
    reset of the hooks on. *)
Section Run.

Context (env : Env) (J : World -> Prop).

Hypothesis J_after : forall w evs, J w -> J (after w evs).
Hypothesis J_loaded : forall w w', J w -> loadedOne w w' -> J w'.

Lemma run_loadEach root files : preserves J (loadEach env root files).
Proof using J_after J_loaded.
  induction files as [| f rest IH]; intros w Hw; [exact Hw |].
  simpl. apply keeps_bind; [| intros _; exact IH | exact Hw].
  intros w1 Hw1. destruct (loadEntry_step env root f w1) as [H | [evs ->]].
  - now apply (J_loaded w1).
  - now apply J_after.
Qed.

Hypothesis J_tuned : forall w (m : gmap string repo) n,
    J w -> J (setRepos m (setPluginsToUpdate n w)).

Lemma run_updatePlugins root : preserves J (updatePlugins env root).
Proof using J_after J_tuned.
  intros w Hw. destruct (updatePlugins_form env root w) as (m & n & evs & -> & _).
  now apply J_after, J_tuned.
Qed.

Lemma run_loadPlugins root w :
  J (setExitHooks [] w) -> J (snd (loadPlugins env root w)).
Proof using J_after J_loaded J_tuned.
  intros Hw. unfold loadPlugins. unfold bind at 1, modify.
  assert (Hperform : forall A e (r : result A), preserves J (perform e r)).
  { intros A e r w1 Hw1. rewrite perform_after. now apply J_after. }
  assert (Hret : forall A (a : A), preserves J (ret a)) by (intros A a w1 Hw1; exact Hw1).
  revert Hw. generalize (setExitHooks [] w). change (preserves J
    (if negb (enableServerPlugins env) then ret EmptyFn else
     found <- existsSync env root ;;
     if negb found then ret EmptyFn else
     files <- readdirSync env root ;;
     if (length files =? 0)%nat then ret EmptyFn else
     updatePlugins env root ;;
     loadEach env root files ;;
     n <- gets (fun w => size (loadedPlugins w)) ;;
     (if (0 <? n)%nat then consoleLog (MsgLoadedCount n) else ret tt) ;;
     hooks <- gets exitHooks ;;
     ret (AllExitHooks hooks))).
  destruct (negb (enableServerPlugins env)); [apply Hret |].
  apply keeps_bind; [apply Hperform | intros found].
  destruct (negb found); [apply Hret |].
  apply keeps_bind; [apply Hperform | intros files].
  destruct (length files =? 0)%nat; [apply Hret |].
  apply keeps_bind; [apply run_updatePlugins | intros _].
  apply keeps_bind; [apply run_loadEach | intros _].
  apply keeps_bind; [intros w1 Hw1; exact Hw1 | intros n].
  apply keeps_bind.
  - destruct (0 <? n)%nat; [| apply Hret].
    intros w1 Hw1. unfold consoleLog. rewrite emit_after. now apply J_after.
  - intros _. apply keeps_bind; [intros w1 Hw1; exact Hw1 | intros hooks; apply Hret].
Qed.

End Run.

(** A run of the load phase is a list of registrations. *)
Lemma loadEach_journal env root files w :
  exists regs, journal w (snd (loadEach env root files w)) regs.
Proof.
  apply (run_loadEach env (fun w' => exists regs, journal w w' regs)).
  - intros w1 evs [regs H]. exists regs.
    apply (journal_untouched _ _ _ _ H). now exists evs.
  - intros w1 w2 [regs H] Hstep.
    destruct (journal_loadedOne _ _ _ _ H Hstep) as [r Hr]. eauto.
  - exists []. apply journal_nil.
Qed.

(** A whole run is a list of registrations after the reset of the hooks. *)
Lemma loadPlugins_journal env root w :
  exists regs, journal (setExitHooks [] w) (snd (loadPlugins env root w)) regs.
Proof.
  apply (run_loadPlugins env (fun w' => exists regs, journal (setExitHooks [] w) w' regs)).
  - intros w1 evs [regs H]. exists regs.
    apply (journal_untouched _ _ _ _ H). now exists evs.
  - intros w1 w2 [regs H] Hstep.
    destruct (journal_loadedOne _ _ _ _ H Hstep) as [r Hr]. eauto.
  - intros w1 m n [regs H]. exists regs. now apply journal_tuned.
  - exists []. apply journal_nil.
Qed.

Lemma append_assoc_3 (a b c : string) : (a +:+ b) +:+ c = a +:+ (b +:+ c).
Proof.
  induction a as [| x r IH]; [reflexivity |].
  change (String x ((r +:+ b) +:+ c) = String x (r +:+ (b +:+ c))). now rewrite IH.
Qed.

Lemma append_inj_prefix (p a b : string) : p +:+ a = p +:+ b -> a = b.
Proof.
  induction p as [| x r IH]; intros H; [exact H |].
  change (String x (r +:+ a) = String x (r +:+ b)) in H.
  apply IH. now injection H.
Qed.

Lemma mountPoint_inj id id' : mountPoint id = mountPoint id' -> id = id'.
Proof. unfold mountPoint. apply append_inj_prefix. Qed.

Lemma allIdChars_append a b : allIdChars (a +:+ b) = allIdChars a && allIdChars b.
Proof.
  induction a as [| x r IH]; [reflexivity |].
  change (allIdChars (String x (r +:+ b)) = idChar x && allIdChars r && allIdChars b).
  cbn [allIdChars]. now rewrite IH, andb_assoc.
Qed.

Lemma isValidPluginID_chars id : isValidPluginID id = true -> allIdChars id = true.
Proof. destruct id; [discriminate | intros H; exact H]. Qed.

Lemma mountsOf_In regs mount :
  In mount (mountsOf regs) ->
  exists r, In r regs /\ fst mount = mountPoint (regId r) /\
            snd mount = fn_routes (regInit r) /\ snd mount <> [].
Proof.
  unfold mountsOf. rewrite in_flat_map. intros (r & Hr & Hin). exists r.
  split; [exact Hr |]. unfold mountOf in Hin.
  destruct (fn_routes (regInit r)) as [| route routes] eqn:Hroutes; [destruct Hin |].
  destruct Hin as [<- | []]. cbn [fst snd]. now repeat split.
Qed.

Lemma mountsOf_NoDup regs :
  List.NoDup (map regId regs) -> List.NoDup (map fst (mountsOf regs)).
Proof.
  induction regs as [| r rs IH]; intros Hnd; [constructor |].
  cbn [map] in Hnd. apply List.NoDup_cons_iff in Hnd. destruct Hnd as [Hfresh Hnd].
  change (mountsOf (r :: rs)) with (mountOf (regId r) (regInit r) ++ mountsOf rs).
  unfold mountOf. destruct (fn_routes (regInit r)) as [| route routes]; [now apply IH |].
  cbn [app map fst]. constructor; [| now apply IH].
  intros Hin. apply in_map_iff in Hin. destruct Hin as (mount & Hfst & Hin).
  destruct (mountsOf_In _ _ Hin) as (r' & Hr' & Hpoint & _).
  apply Hfresh. rewrite Hpoint in Hfst. apply mountPoint_inj in Hfst.
  rewrite <- Hfst. now apply in_map.
Qed.

Lemma hooksOf_In regs hook :
  In hook (hooksOf regs) ->
  exists r, In r regs /\ exported (regModule r) "exit" = VFunction hook.
Proof.
  unfold hooksOf. rewrite in_flat_map. intros (r & Hr & Hin). exists r.
  split; [exact Hr |]. unfold exitHookOf in Hin.
  destruct (exported (regModule r) "exit"); try destruct Hin as [Hin | []]; try destruct Hin.
  reflexivity.
Qed.

Lemma hooksOf_length regs : length (hooksOf regs) <= length regs.
Proof.
  induction regs as [| r rs IH]; [simpl; lia |].
  change (hooksOf (r :: rs)) with (exitHookOf (regModule r) ++ hooksOf rs).
  rewrite length_app. unfold exitHookOf.
  destruct (exported (regModule r) "exit"); simpl; lia.
Qed.

Lemma mountsOf_length regs : length (mountsOf regs) <= length regs.
Proof.
  induction regs as [| r rs IH]; [simpl; lia |].
  change (mountsOf (r :: rs)) with (mountOf (regId r) (regInit r) ++ mountsOf rs).
  rewrite length_app. unfold mountOf.
  destruct (fn_routes (regInit r)); simpl; lia.
Qed.

Lemma journal_free w0 w' regs :
  journal w0 w' regs -> Forall (fun r => loadedPlugins w0 !! regId r = None) regs.
Proof.
  intros (_ & Hall & _). eapply List.Forall_impl; [| exact Hall].
  intros r (_ & _ & H). exact H.
Qed.

(** X9: the registry after a run of [loadPlugins].  Every record that
    was there before the run is still there, unchanged; every other
    record is a module that passes validation, stored under the id that
    its own info declares (an id of the grammar that was free before the
    run), and whose init was called and completed. *)
Theorem registry_holds_validated_modules env root (w : World) :
  let w' := snd (loadPlugins env root w) in
  (forall id plugin,
     loadedPlugins w !! id = Some plugin -> loadedPlugins w' !! id = Some plugin) /\
  (forall id plugin,
     loadedPlugins w' !! id = Some plugin ->
     loadedPlugins w !! id = Some plugin \/
     (loadedPlugins w !! id = None /\
      exists init, accepts plugin id init /\ completes init)).
Proof.
  cbv zeta. destruct (loadPlugins_journal env root w) as [regs Hj].
  pose proof (journal_free _ _ _ Hj) as Hfree.
  destruct Hj as (Hnd & Hall & Hreg & _).
  change (loadedPlugins (setExitHooks [] w)) with (loadedPlugins w) in *.
  rewrite Hreg. split.
  - intros id plugin Hid. now apply recorded_kept.
  - intros id plugin Hid. apply recorded_Some in Hid.
    destruct Hid as [Hid | [init Hin]]; [now left | right].
    rewrite List.Forall_forall in Hall. destruct (Hall _ Hin) as (Hacc & Hdone & Hnone).
    split; [exact Hnone |]. exists init. now split.
Qed.

(** X10: the routes after a run of [loadPlugins].  The mounts that were
    there are kept, in place; the run appends at most one mount per
    module it registered, no two of them at the same path, and each of
    them is the non-empty stack of routes that the init of a module
    registered in this run pushed, mounted at [/api/plugins/] followed by
    the id of that module. *)
Theorem mounts_follow_registrations env root (w : World) :
  let w' := snd (loadPlugins env root w) in
  exists added,
    appRoutes w' = appRoutes w ++ added /\
    List.NoDup (map fst added) /\
    length added + size (loadedPlugins w) <= size (loadedPlugins w') /\
    Forall (fun mount =>
              exists id plugin init,
                fst mount = mountPoint id /\ snd mount = fn_routes init /\
                snd mount <> [] /\
                loadedPlugins w !! id = None /\ loadedPlugins w' !! id = Some plugin /\
                exported plugin "init" = VFunction init) added.
Proof.
  cbv zeta. destruct (loadPlugins_journal env root w) as [regs Hj].
  pose proof (journal_free _ _ _ Hj) as Hfree.
  destruct Hj as (Hnd & Hall & Hreg & Hroutes & _).
  change (loadedPlugins (setExitHooks [] w)) with (loadedPlugins w) in *.
  change (appRoutes (setExitHooks [] w)) with (appRoutes w) in *.
  exists (mountsOf regs). split; [exact Hroutes |].
  split; [now apply mountsOf_NoDup |]. split.
  - rewrite Hreg, (recorded_size _ _ Hnd Hfree).
    pose proof (mountsOf_length regs). lia.
  - apply List.Forall_forall. intros mount Hin.
    destruct (mountsOf_In _ _ Hin) as (r & Hr & Hpoint & Hstack & Hsome).
    rewrite List.Forall_forall in Hall.
    destruct (Hall _ Hr) as (Hacc & _ & Hnone).
    exists (regId r), (regModule r), (regInit r).
    repeat split; try assumption.
    + rewrite Hreg. now apply recorded_In.
    + destruct Hacc as (props & name & description & _ & _ & _ & _ & Hinit & _).
      exact Hinit.
Qed.

(** X11: the teardown function of a run calls the exit hooks of this run
    only.  The hooks collected when [loadPlugins] ends are exit exports
    of modules that this run registered under ids that were free before
    it, at most one per such module, whatever hooks an earlier run had
    collected; and the function that [loadPlugins] resolves to is either
    the empty function or the one that calls exactly these hooks. *)
Theorem teardown_hooks_belong_to_this_run env root (w : World) :
  let w' := snd (loadPlugins env root w) in
  (forall t, fst (loadPlugins env root w) = Ok t ->
             t = EmptyFn \/ t = AllExitHooks (exitHooks w')) /\
  Forall (fun hook =>
            exists id plugin,
              loadedPlugins w !! id = None /\ loadedPlugins w' !! id = Some plugin /\
              exported plugin "exit" = VFunction hook) (exitHooks w') /\
  length (exitHooks w') + size (loadedPlugins w) <= size (loadedPlugins w').
Proof.
  cbv zeta. split.
  { intros t Ht. destruct (loadPlugins env root w) as [r w1] eqn:Hrun.
    simpl in Ht. subst r. apply (loadPlugins_teardown _ _ _ _ _ Hrun). }
  destruct (loadPlugins_journal env root w) as [regs Hj].
  pose proof (journal_free _ _ _ Hj) as Hfree.
  destruct Hj as (Hnd & Hall & Hreg & _ & Hhooks).
  change (loadedPlugins (setExitHooks [] w)) with (loadedPlugins w) in *.
  change (exitHooks (setExitHooks [] w)) with (@nil func) in Hhooks.
  rewrite app_nil_l in Hhooks. rewrite Hhooks, Hreg. split.
  - apply List.Forall_forall. intros hook Hin.
    destruct (hooksOf_In _ _ Hin) as (r & Hr & Hexit).
    rewrite List.Forall_forall in Hfree.
    exists (regId r), (regModule r). split; [now apply Hfree |].
    split; [now apply recorded_In | exact Hexit].
  - rewrite (recorded_size _ _ Hnd Hfree). pose proof (hooksOf_length regs). lia.
Qed.

(** X12: the load phase stays away from git.  Whatever the candidates
    are and however their imports, validations and inits end, the loop
    over the entries of the directory runs no git command, and it leaves
    the checkouts and the update counter as the update phase left
    them. *)
Theorem load_phase_runs_no_git env root files (w : World) :
  let w' := snd (loadEach env root files w) in
  repos w' = repos w /\ pluginsToUpdate w' = pluginsToUpdate w /\
  exists evs, trace w' = trace w ++ evs /\ Forall (fun e => isGit e = false) evs.
Proof.
  cbv zeta.
  assert (Hstate : repos (snd (loadEach env root files w)) = repos w /\
                   pluginsToUpdate (snd (loadEach env root files w)) = pluginsToUpdate w).
  { apply (run_loadEach env
             (fun w' => repos w' = repos w /\ pluginsToUpdate w' = pluginsToUpdate w)).
    - intros w1 evs H. exact H.
    - intros w1 w2 [H1 H2] (plugin & id & init & evs & _ & _ & _ & ->).
      unfold registered.
      destruct (fn_routes init); destruct (exported plugin "exit"); split; assumption.
    - now split. }
  destruct Hstate as [Hrepos Hcount]. split; [exact Hrepos |]. split; [exact Hcount |].
  apply (preserves_loadEach env (extends (fun e => isGit e = false) w)
           (fun e => isGit e = false)).
  - intros w1 e He Hw1. now apply extends_after.
  - intros e He. exact He.
  - intros w1 id plugin _ Hw1. exact Hw1.
  - intros w1 r Hw1. exact Hw1.
  - intros w1 h Hw1. exact Hw1.
  - intros w1 n Hw1. exact Hw1.
  - intros w1 dir _ Hw1. exact Hw1.
  - apply extends_refl.
Qed.

(** X13: an exit hook that throws at the call ends the teardown on the
    spot.  The hooks before it have been called, and what they returned
    (their promises included) is dropped; the hooks after it are not
    called; and the teardown function throws the error instead of
    returning a promise. *)
Theorem throwing_hook_stops_teardown pre hook post e (w : World) :
  Forall returnsFromCall pre -> fn_result hook = Throws e ->
  runTeardown (AllExitHooks (pre ++ hook :: post)) w =
  (TdThrew e, after w (map callOf (pre ++ [hook]))).
Proof.
  intros Hpre Hhook. unfold runTeardown.
  now rewrite (mapCalls_stops_at_throw pre hook post e w Hpre Hhook).
Qed.

(** An exit hook that is not an [async] function and throws, and one that
    would have run after it. *)
Definition crashExit : func := Func "crash.exit" [] (Throws "EBUSY: resource busy").
Definition lateExit : func := Func "late.exit" [] Returns.

Lemma throwing_hook_stops_teardown_witness :
  runTeardown (AllExitHooks ([barExit] ++ crashExit :: [lateExit])) emptyWorld =
  (TdThrew "EBUSY: resource busy", after emptyWorld (map callOf ([barExit] ++ [crashExit]))).
Proof.
  apply (throwing_hook_stops_teardown [barExit] crashExit [lateExit]).
  - constructor; [intros e H; discriminate H | constructor].
  - reflexivity.
Defined.

(** X14: the namespaces of plugins are flat.  Two ids are mounted at the
    same path only when they are the same id, and the path of a valid id
    never lies below the path of another id: [/api/plugins/a] is not a
    directory prefix of the path of any valid id, since a valid id has no
    slash. *)
Theorem plugin_namespaces_are_flat id id' :
  isValidPluginID id' = true ->
  (mountPoint id = mountPoint id' -> id = id') /\
  (forall rest, mountPoint id' <> mountPoint id +:+ "/" +:+ rest).
Proof.
  intros Hvalid. split; [apply mountPoint_inj |].
  intros rest Heq. unfold mountPoint in Heq. rewrite append_assoc_3 in Heq.
  apply append_inj_prefix in Heq. apply isValidPluginID_chars in Hvalid.
  rewrite Heq, allIdChars_append in Hvalid. apply andb_prop in Hvalid.
  destruct Hvalid as [_ Hvalid]. discriminate Hvalid.
Qed.

Lemma plugin_namespaces_are_flat_witness :
  (mountPoint "foo" = mountPoint "foo-bar" -> "foo" = "foo-bar") /\
  (forall rest, mountPoint "foo-bar" <> mountPoint "foo" +:+ "/" +:+ rest).
Proof.
  apply (plugin_namespaces_are_flat "foo" "foo-bar"). reflexivity.
Defined.

(** ** Every directory gets its turn *)

(** The first git command of a turn. *)
Definition isProbe (e : event) : bool :=
  match e with
  | Git _ CheckIsRepo => true
  | _ => false
  end.

Lemma updated_probe root directory w :
  exists evs,
    trace (updated root directory w) = trace w ++ evs /\
    List.filter isProbe evs = [Git (Path.join root directory) CheckIsRepo].
Proof.
  unfold updated. cbv zeta. set (q := Path.join root directory).
  destruct (repo_isRepo (repoAt w q)) as [[|] | e1];
    [destruct (repo_fetch (repoAt w q)) as [[] | e2];
     [destruct (repo_tracking (repoAt w q)) as [tracking | e3];
      [destruct (repo_log (repoAt w q)) as [[| c cs] | e4];
       [| destruct (repo_pull (repoAt w q)) as [[] | e5] |] |] |] | |].
  all: eexists; split; reflexivity.
Qed.

Lemma updatedAll_probe root directories w :
  exists evs,
    trace (updatedAll root directories w) = trace w ++ evs /\
    List.filter isProbe evs = map (fun d => Git (Path.join root d) CheckIsRepo) directories.
Proof.
  revert w. induction directories as [| d rest IH]; intros w; simpl.
  - exists []. now rewrite app_nil_r.
  - destruct (updated_probe root d w) as (evs & Htrace & Hprobe).
    destruct (IH (updated root d w)) as (evs' & Htrace' & Hprobe').
    exists (evs ++ evs'). split; [now rewrite Htrace', Htrace, app_assoc |].
    now rewrite List.filter_app, Hprobe, Hprobe'.
Qed.

Lemma statOf_no_probe root names : List.filter isProbe (map (statOf root) names) = [].
Proof. induction names as [| f rest IH]; [reflexivity | exact IH]. Qed.

(** X15: every directory gets its turn in the update phase.  When
    auto-update is on, git is installed, and the extensions directory and
    its visible entries can be read, the phase returns normally and has
    asked git about each visible directory exactly once, in the order of
    the listing, whatever the fetches, look-ups and pulls of the other
    directories did: a failure in one turn never ends the loop. *)
Theorem update_visits_every_directory env root files (w : World) :
  enableServerPluginsAutoUpdate env = true -> git_installed env = true ->
  fs_readdir env root = Ok files ->
  Forall (fun f => exists b, fs_isDirectory env (Path.join root f) = Ok b)
    (List.filter notHidden files) ->
  let directories := List.filter (isDirectoryIn env root) (List.filter notHidden files) in
  fst (updatePlugins env root w) = Ok tt /\
  exists evs,
    trace (snd (updatePlugins env root w)) = trace w ++ evs /\
    List.filter isProbe evs = map (fun d => Git (Path.join root d) CheckIsRepo) directories.
Proof.
  intros Hauto Hgit Hdir Hstat directories.
  destruct directories as [| d0 ds] eqn:Hdirs.
  - assert (Hrun : updatePlugins env root w =
                   (Ok tt, after w (FsReaddir root ::
                                    map (statOf root) (List.filter notHidden files)))).
    { unfold updatePlugins. rewrite Hauto. cbn [negb].
      unfold bind at 1, readdirSync. rewrite perform_after, Hdir.
      unfold bind. rewrite (filterDirectories_run _ _ _ _ Hstat).
      fold directories. rewrite Hdirs. cbn [length Nat.eqb]. unfold ret.
      now rewrite after_after. }
    rewrite Hrun. cbn [fst snd]. split; [reflexivity |].
    eexists. split; [reflexivity |].
    cbn [List.filter isProbe]. apply statOf_no_probe.
  - assert (Hsome : directories <> []) by (subst directories; rewrite Hdirs; discriminate).
    pose proof (updatePlugins_run env root files w Hauto Hgit Hdir Hstat Hsome) as Hrun.
    cbv zeta in Hrun. rewrite Hrun. cbn [fst snd]. split; [reflexivity |].
    fold directories. rewrite <- Hdirs.
    set (pre := FsReaddir root :: map (statOf root) (List.filter notHidden files) ++
                [ConsoleLog MsgAutoUpdating; CommandExists "git"]).
    set (w2 := setPluginsToUpdate 0 (after w pre)).
    destruct (updatedAll_probe root directories w2) as (evs & Htrace & Hprobe).
    assert (Hpre : List.filter isProbe pre = []).
    { unfold pre. cbn [List.filter isProbe]. rewrite List.filter_app, statOf_no_probe.
      reflexivity. }
    destruct (pluginsToUpdate (updatedAll root directories w2) =? 0)%nat.
    + exists ((pre ++ evs) ++ [ConsoleLog MsgUpToDate]). split.
      * change (trace (after (updatedAll root directories w2) [ConsoleLog MsgUpToDate]))
          with (trace (updatedAll root directories w2) ++ [ConsoleLog MsgUpToDate]).
        rewrite Htrace. change (trace w2) with (trace w ++ pre).
        now rewrite <- !app_assoc.
      * rewrite !List.filter_app, Hpre, Hprobe. cbn [List.filter isProbe app].
        now rewrite app_nil_r.
    + exists (pre ++ evs). split.
      * rewrite Htrace. change (trace w2) with (trace w ++ pre). now rewrite app_assoc.
      * now rewrite List.filter_app, Hpre, Hprobe.
Qed.

Lemma update_visits_every_directory_witness :
  let directories :=
    List.filter (isDirectoryIn hiddenDisk "plugins") (List.filter notHidden [".secret"; "open"]) in
  fst (updatePlugins hiddenDisk "plugins" conflictWorld) = Ok tt /\
  exists evs,
    trace (snd (updatePlugins hiddenDisk "plugins" conflictWorld)) = trace conflictWorld ++ evs /\
    List.filter isProbe evs = map (fun d => Git (Path.join "plugins" d) CheckIsRepo) directories.
Proof.
  apply (update_visits_every_directory hiddenDisk "plugins" [".secret"; "open"] conflictWorld).
  - reflexivity.
  - reflexivity.
  - reflexivity.
  - repeat constructor. now exists true.
Defined.
